(** * Result assembly and task bookkeeping of assemblyline_v4_service.common

    A shallow embedding of [result.py] (Heuristic, ResultSection, Result) and
    of the file bookkeeping of [task.py] (Task.add_extracted and
    Task.add_supplementary), followed by the properties the specification
    states about them.

    Python objects become records, [int] becomes [Z], [dict] becomes a
    [gmap], exceptions become the [Raise] case of [result].  What the code
    imports from the assemblyline core (the heuristic manifest, the attack
    catalogue, the classification engine, the tag re-nesting) is gathered in
    the class [Collaborators]; what it asks of the operating system is
    gathered in the class [OS]. *)

From Stdlib Require Import ZArith Lia Ascii.
From stdpp Require Import gmap strings list fin_maps.

Local Open Scope string_scope.
Local Open Scope list_scope.
Local Open Scope Z_scope.

(** ** Exceptions *)

Inductive exn : Type :=
  | InvalidHeuristicException
  | ResultAggregationException
  | UnicodeDecodeError
  | TypeError
  | OSError.

Inductive result (A : Type) : Type :=
  | OK (a : A)
  | Raise (e : exn).
Arguments OK {A} a.
Arguments Raise {A} e.

Definition bind {A B : Type} (r : result A) (k : A -> result B) : result B :=
  match r with
  | OK a => k a
  | Raise e => Raise e
  end.

Notation "'try!' x <- r ; k" := (bind r (fun x => k))
  (at level 10, x pattern, r at level 100, k at level 200).

(** Python truthiness of an [Optional[str]]: [None] and the empty string are
    both falsy. *)
Definition truthy (s : option string) : bool :=
  match s with
  | Some s => negb (String.eqb s "")
  | None => false
  end.

(** ** Collaborators from the assemblyline core *)

(** One entry of the manifest [HEUR_LIST]: [definition.score],
    [definition.attack_id] and [definition.signature_score_map]. *)
Record HeuristicDefinition : Type := mkDefinition {
  def_score : Z;
  def_attack_id : list string;
  def_signature_score_map : gmap string Z
}.

Class Collaborators : Type := {
  (** [get_heuristics()] *)
  HEUR_LIST : gmap Z HeuristicDefinition;
  (** [assemblyline.common.attack_map.attack_map], used for membership only *)
  attack_map : gset string;
  (** [Classification.max_classification]; [None] is InvalidClassification *)
  max_classification : string -> string -> option string;
  (** [SERVICE_ATTRIBUTES.default_result_classification] *)
  default_result_classification : string;
  (** [bytes.decode()]; [None] is UnicodeDecodeError *)
  decode : list Byte.byte -> option string;
  (** [assemblyline.common.dict_utils.unflatten] on a tag dictionary *)
  TagTree : Type;
  unflatten : gmap string (list string) -> TagTree
}.

(** ** Heuristic *)

Record Heuristic : Type := mkHeuristic {
  definition : HeuristicDefinition;
  heur_id : Z;
  attack_ids : list string;
  score : Z;
  frequency : Z;
  signatures : gmap string Z
}.

(** The body of the two scoring branches, [signature_score_map[sig] * freq]
    when the manifest overrides the signature and [definition.score * freq]
    otherwise, added to the running score. *)
Definition add_signature_score (d : HeuristicDefinition)
    (sig_name : string) (freq : Z) (running : Z) : Z :=
  match def_signature_score_map d !! sig_name with
  | Some o => running + o * freq
  | None => running + def_score d * freq
  end.

(** [d.setdefault(k, 0); d[k] += n] *)
Definition bump (k : string) (n : Z) (d : gmap string Z) : gmap string Z :=
  <[k := default 0 (d !! k) + n]> d.

Section Heuristic.
Context `{Collaborators}.

(** [Heuristic.__init__].  The loop over [self.signatures.items()] only
    adds to [self.score], so the order in which the dictionary is walked
    does not show in the result. *)
Definition Heuristic_init (heur_id : Z) (attack_id signature : option string)
    (attack_ids : option (list string)) (signatures : option (gmap string Z))
    (frequency : Z) : result Heuristic :=
  match HEUR_LIST !! heur_id with
  | None => Raise InvalidHeuristicException
  | Some definition =>
      let attack_ids := default [] attack_ids in
      let attack_ids :=
        match attack_id with
        | Some a => if truthy attack_id then attack_ids ++ [a] else attack_ids
        | None => attack_ids
        end in
      let attack_ids :=
        match attack_ids, def_attack_id definition with
        | [], _ :: _ => attack_ids ++ def_attack_id definition
        | _, _ => attack_ids
        end in
      let self_attack_ids :=
        filter (fun a_id => a_id ∈ attack_map) attack_ids in
      let self_signatures := default ∅ signatures in
      let self_signatures :=
        match signature with
        | Some s => if truthy signature then bump s 1 self_signatures
                    else self_signatures
        | None => self_signatures
        end in
      let '(self_frequency, self_score) :=
        if decide (self_signatures = ∅)
        then (frequency, 0 + def_score definition * frequency)
        else (0, 0) in
      let self_score :=
        map_fold (add_signature_score definition) self_score self_signatures in
      OK {| definition := definition;
            heur_id := heur_id;
            attack_ids := self_attack_ids;
            score := self_score;
            frequency := self_frequency;
            signatures := self_signatures |}
  end.

(** [Heuristic.add_attack_id] *)
Definition add_attack_id (self : Heuristic) (attack_id : string) : Heuristic :=
  if decide (attack_id ∈ attack_map) then
    if decide (attack_id ∈ attack_ids self) then self
    else {| definition := definition self;
            heur_id := heur_id self;
            attack_ids := attack_ids self ++ [attack_id];
            score := score self;
            frequency := frequency self;
            signatures := signatures self |}
  else self.
End Heuristic.

(** [Heuristic.add_signature_id] *)
Definition add_signature_id (self : Heuristic) (signature : string)
    (freq : Z) : Heuristic :=
  {| definition := definition self;
     heur_id := heur_id self;
     attack_ids := attack_ids self;
     score := add_signature_score (definition self) signature freq (score self);
     frequency := frequency self;
     signatures := bump signature freq (signatures self) |}.

(** [Heuristic.increment_frequency] *)
Definition increment_frequency (self : Heuristic) (freq : Z) : Heuristic :=
  {| definition := definition self;
     heur_id := heur_id self;
     attack_ids := attack_ids self;
     score := score self + def_score (definition self) * freq;
     frequency := frequency self + freq;
     signatures := signatures self |}.

(** ** ResultSection *)

Inductive BODY_FORMAT : Type :=
  | TEXT | MEMORY_DUMP | GRAPH_DATA | URL | JSON | KEY_VALUE.

(** A section object.  The report is a tree: a subsection is held by the
    list of its parent and by nothing else, so the objects reachable from a
    section are modelled by the sections below it, and [self.parent] by the
    position in the tree ([add_subsection] sets it to the holder).  [oid] is
    the identity of the Python object, which is what [in] and [list.remove]
    compare, since the class defines no [__eq__].  Two places of a tree
    that carry the same [oid] would stand for one object held twice; the
    Python object has one [_finalized] flag, so that [finalize] raises when
    it comes to its second place, while the tree has a flag in each place.
    The properties that say that [finalize] returns are therefore stated
    for trees in which every [oid] occurs once, see [unshared]. *)
#[warnings="-register-all"] Inductive ResultSection : Type := mkSection {
  oid : positive;
  _finalized : bool;
  subsections : list ResultSection;
  body : option string;
  classification : string;
  body_format : BODY_FORMAT;
  depth : Z;
  tags : gmap string (list string);
  heuristic : option Heuristic;
  title_text : string
}.

(** A tag value as [add_tag] receives it: [str] or [bytes]. *)
Inductive tag_value : Type :=
  | Str (s : string)
  | Bytes (b : list Byte.byte).

(** [x in l] on a list of section objects *)
Definition section_in (x : ResultSection) (l : list ResultSection) : bool :=
  bool_decide (oid x ∈ oid <$> l).

Definition set_subsections (self : ResultSection)
    (subs : list ResultSection) : ResultSection :=
  {| oid := oid self; _finalized := _finalized self; subsections := subs;
     body := body self; classification := classification self;
     body_format := body_format self; depth := depth self;
     tags := tags self; heuristic := heuristic self;
     title_text := title_text self |}.

Definition set_tags (self : ResultSection)
    (t : gmap string (list string)) : ResultSection :=
  {| oid := oid self; _finalized := _finalized self;
     subsections := subsections self;
     body := body self; classification := classification self;
     body_format := body_format self; depth := depth self;
     tags := t; heuristic := heuristic self;
     title_text := title_text self |}.

Definition set_heuristic_field (self : ResultSection)
    (h : option Heuristic) : ResultSection :=
  {| oid := oid self; _finalized := _finalized self;
     subsections := subsections self;
     body := body self; classification := classification self;
     body_format := body_format self; depth := depth self;
     tags := tags self; heuristic := h;
     title_text := title_text self |}.

(** [ResultSection.set_body] *)
Definition set_body (self : ResultSection) (b : string)
    (fmt : BODY_FORMAT) : ResultSection :=
  {| oid := oid self; _finalized := _finalized self;
     subsections := subsections self;
     body := Some b; classification := classification self;
     body_format := fmt; depth := depth self;
     tags := tags self; heuristic := heuristic self;
     title_text := title_text self |}.

(** [ResultSection.add_subsection] *)
Definition add_subsection (self subsection : ResultSection)
    (on_top : bool) : ResultSection :=
  set_subsections self
    (if on_top then subsection :: subsections self
     else subsections self ++ [subsection]).

Section ResultSection.
Context `{Collaborators}.

(** [ResultSection.__init__] without the [parent] argument, which only
    calls [add_subsection] or [add_section] on the parent; [o] is the
    identity of the new object.  The title is given already joined. *)
Definition ResultSection_init (o : positive) (title_text : string)
    (body : option string) (classification : option string)
    (body_format : BODY_FORMAT) (heuristic : option Heuristic)
    (tags : option (gmap string (list string))) : ResultSection :=
  {| oid := o; _finalized := false; subsections := [];
     body := body;
     classification :=
       match classification with
       | Some c => if truthy classification then c
                   else default_result_classification
       | None => default_result_classification
       end;
     body_format := body_format; depth := 0;
     tags := default ∅ tags;
     heuristic := heuristic;
     title_text := title_text |}.

(** [ResultSection.add_tag] *)
Definition add_tag (self : ResultSection) (tag_type : string)
    (value : tag_value) : result ResultSection :=
  try! value <- match value with
                | Str s => OK s
                | Bytes b => match decode b with
                             | Some s => OK s
                             | None => Raise UnicodeDecodeError
                             end
                end;
  let tags1 :=
    match tags self !! tag_type with
    | None => <[tag_type := []]> (tags self)
    | Some _ => tags self
    end in
  let values := default [] (tags1 !! tag_type) in
  let tags2 :=
    if decide (value ∈ values) then tags1
    else <[tag_type := values ++ [value]]> tags1 in
  OK (set_tags self tags2).

(** [ResultSection.set_heuristic].  A [Heuristic] object defines neither
    [__bool__] nor [__len__], so [if self.heuristic] holds exactly when
    the field is not [None]. *)
Definition set_heuristic (self : ResultSection) (heur_id : Z)
    (attack_id signature : option string) : result ResultSection :=
  match heuristic self with
  | Some _ => Raise InvalidHeuristicException
  | None =>
      try! h <- Heuristic_init heur_id attack_id signature None None 1;
      OK (set_heuristic_field self (Some h))
  end.

(** [ResultSection.finalize].  [parent] is the classification of
    [self.parent] when the parent is a ResultSection, and [None] when the
    parent is a Result or absent.  The result is the section after the
    call, [keep_me], and the classification of the parent after the call.
    The inner loop is the [for subsection in self.subsections] loop; it
    threads [self.classification], which the children raise. *)
Fixpoint finalize (self : ResultSection) (depth : Z)
    (parent : option string) : result (ResultSection * bool * option string) :=
  if _finalized self then Raise ResultAggregationException else
  let all_subs := subsections self in
  let loop :=
    fix loop (subs : list ResultSection) (cls : string)
        : result (list ResultSection * string) :=
      match subs with
      | [] => OK ([], cls)
      | subsection :: rest =>
          try! child <- finalize subsection (depth + 1) (Some cls);
          let '(subsection', _, cls') := child in
          try! others <- loop rest (default cls cls');
          let '(tmp_subs, cls'') := others in
          OK (if section_in subsection' all_subs
              then subsection' :: tmp_subs else tmp_subs, cls'')
      end in
  try! children <- loop (subsections self) (classification self);
  let '(tmp_subs, cls) := children in
  let self' :=
    {| oid := oid self; _finalized := true; subsections := tmp_subs;
       body := body self; classification := cls;
       body_format := body_format self; depth := depth;
       tags := tags self; heuristic := heuristic self;
       title_text := title_text self |} in
  match parent with
  | Some parent_classification =>
      match max_classification cls parent_classification with
      | Some m => OK (self', true, Some m)
      | None => OK (self', false, Some parent_classification)
      end
  | None => OK (self', true, None)
  end.
End ResultSection.

(** ** Result *)

(** What [get_heuristic_primitives] returns for a heuristic. *)
Record HeuristicPrimitives : Type := mkPrimitives {
  prim_heur_id : Z;
  prim_score : Z;
  prim_attack_ids : list string;
  prim_signatures : gmap string Z;
  prim_frequency : Z
}.

(** [get_heuristic_primitives] *)
Definition get_heuristic_primitives (heur : option Heuristic)
    : option HeuristicPrimitives :=
  match heur with
  | None => None
  | Some heur =>
      Some {| prim_heur_id := heur_id heur;
              prim_score := score heur;
              prim_attack_ids := attack_ids heur;
              prim_signatures := signatures heur;
              prim_frequency := frequency heur |}
  end.

Section Result.
Context `{Collaborators}.

(** One entry of [Result._flattened_sections]. *)
Record FlatSection : Type := mkFlat {
  flat_body : option string;
  flat_classification : string;
  flat_body_format : BODY_FORMAT;
  flat_depth : Z;
  flat_heuristic : option HeuristicPrimitives;
  flat_tags : TagTree;
  flat_title_text : string
}.

Record Result : Type := mkResult {
  _flattened_sections : list FlatSection;
  _score : Z;
  sections : list ResultSection
}.

(** The dictionary [Result.finalize] returns. *)
Record ResultDict : Type := mkResultDict {
  dict_score : Z;
  dict_sections : list FlatSection
}.

(** [Result.__init__] *)
Definition Result_init (sections : option (list ResultSection)) : Result :=
  {| _flattened_sections := []; _score := 0;
     sections := default [] sections |}.

(** The dictionary [Result._append_section] appends. *)
Definition section_record (section : ResultSection) : FlatSection :=
  {| flat_body := body section;
     flat_classification := classification section;
     flat_body_format := body_format section;
     flat_depth := depth section;
     flat_heuristic := get_heuristic_primitives (heuristic section);
     flat_tags := unflatten (tags section);
     flat_title_text := title_text section |}.

(** [Result._append_section] on the list of records *)
Definition _append_section (flattened : list FlatSection)
    (section : ResultSection) : list FlatSection :=
  flattened ++ [section_record section].

(** [Result._flatten_sections], threading [self._flattened_sections]. *)
Fixpoint _flatten_sections (section : ResultSection) (root : bool)
    (flattened : list FlatSection) : list FlatSection :=
  match subsections section with
  | _ :: _ =>
      let flattened :=
        if root then _append_section flattened section else flattened in
      (fix loop (subs : list ResultSection) (flattened : list FlatSection)
           : list FlatSection :=
         match subs with
         | [] => flattened
         | subsection :: rest =>
             let flattened := _append_section flattened subsection in
             let flattened :=
               match subsections subsection with
               | _ :: _ => _flatten_sections subsection false flattened
               | [] => flattened
               end in
             loop rest flattened
         end) (subsections section) flattened
  | [] => _append_section flattened section
  end.

(** [Result.add_section] *)
Definition add_section (self : Result) (section : ResultSection)
    (on_top : bool) : Result :=
  {| _flattened_sections := _flattened_sections self;
     _score := _score self;
     sections := if on_top then section :: sections self
                 else sections self ++ [section] |}.

(** The first loop of [Result.finalize]: every top-level section gets the
    Result as parent and is finalized; the sections that answer "do not
    keep" are collected in [to_delete_sections]. *)
Fixpoint finalize_sections (l : list ResultSection)
    : result (list ResultSection * list ResultSection) :=
  match l with
  | [] => OK ([], [])
  | section :: rest =>
      try! r <- finalize section 0 None;
      let '(section', keep_me, _) := r in
      try! others <- finalize_sections rest;
      let '(rest', to_delete_sections) := others in
      OK (section' :: rest',
          if keep_me then to_delete_sections
          else section' :: to_delete_sections)
  end.

(** [list.remove] on section objects: the first occurrence goes. *)
Fixpoint remove_section (x : ResultSection) (l : list ResultSection)
    : list ResultSection :=
  match l with
  | [] => []
  | y :: l' => if decide (oid x = oid y) then l' else y :: remove_section x l'
  end.

(** The scoring loop of [Result.finalize] over the flat records. *)
Definition add_scores (flattened : list FlatSection) (start : Z) : Z :=
  fold_left
    (fun acc section =>
       match flat_heuristic section with
       | Some heuristic => acc + prim_score heuristic
       | None => acc
       end)
    flattened start.

(** [Result.finalize]: the Result after the call and the returned
    dictionary. *)
Definition Result_finalize (self : Result) : result (Result * ResultDict) :=
  try! r <- finalize_sections (sections self);
  let '(finalized, to_delete_sections) := r in
  let kept := fold_left (fun l section => remove_section section l)
                        to_delete_sections finalized in
  let flattened :=
    fold_left (fun acc section => _flatten_sections section true acc)
              kept (_flattened_sections self) in
  let score := add_scores flattened (_score self) in
  OK ({| _flattened_sections := flattened; _score := score;
         sections := kept |},
      {| dict_score := score; dict_sections := flattened |}).
End Result.

(** ** Task *)

(** What [task.py] asks of the operating system and of the digest helper.
    A call that raises answers [None]. *)
Class OS : Type := {
  filesystem : Type;
  (** [os.path.join] *)
  path_join : string -> string -> string;
  (** [os.path.dirname] *)
  path_dirname : string -> string;
  (** [os.path.exists] *)
  path_exists : filesystem -> string -> bool;
  (** [os.makedirs] *)
  makedirs : filesystem -> string -> option filesystem;
  (** [shutil.move src dst] *)
  move : filesystem -> string -> string -> option filesystem;
  (** [assemblyline.common.digests.get_sha256_for_file] *)
  get_sha256_for_file : filesystem -> string -> option string
}.

(** The record [File(dict(name, sha256, description, classification))]. *)
Record File : Type := mkFile {
  file_name : string;
  file_sha256 : string;
  file_description : string;
  file_classification : option string
}.

(** The fields of a Task that the file bookkeeping reads and writes. *)
Record Task : Type := mkTask {
  _working_directory : option string;
  drop_file : bool;
  extracted : list File;
  supplementary : list File;
  service_name : string;
  task_sha256 : string
}.

Section Task.
Context `{OS}.

(** A computation on the file system that may raise; the file system it
    leaves behind is kept in both cases. *)
Definition io (A : Type) : Type := filesystem -> filesystem * result A.

Definition io_ret {A : Type} (a : A) : io A := fun w => (w, OK a).

Definition io_raise {A : Type} (e : exn) : io A := fun w => (w, Raise e).

Definition io_bind {A B : Type} (m : io A) (k : A -> io B) : io B :=
  fun w =>
    match m w with
    | (w', OK a) => k a w'
    | (w', Raise e) => (w', Raise e)
    end.

Notation "'do!' x <- m ; k" := (io_bind m (fun x => k))
  (at level 10, x name, m at level 100, k at level 200).

(** [if not os.path.exists(p): os.makedirs(p)] *)
Definition ensure_folder (folder_path : string) : io unit :=
  fun w =>
    if path_exists w folder_path then (w, OK tt)
    else match makedirs w folder_path with
         | Some w' => (w', OK tt)
         | None => (w, Raise OSError)
         end.

(** [if not os.path.exists(dst): shutil.move(src, dst)] *)
Definition move_unless_exists (src dst : string) : io unit :=
  fun w =>
    if path_exists w dst then (w, OK tt)
    else match move w src dst with
         | Some w' => (w', OK tt)
         | None => (w, Raise OSError)
         end.

Definition sha256_of (path : string) : io string :=
  fun w =>
    match get_sha256_for_file w path with
    | Some h => (w, OK h)
    | None => (w, Raise OSError)
    end.

(** [Task.add_extracted].  The source of [shutil.move] is [name], as the
    code has it, and the digest is read from [path]. *)
Definition add_extracted (self : Task) (path name description : string)
    (classification : option string) : io Task :=
  match _working_directory self with
  | None => io_raise TypeError
  | Some working_directory =>
      let file_path := path_join working_directory name in
      let folder_path := path_dirname path in
      do! _ <- ensure_folder folder_path;
      do! _ <- move_unless_exists name file_path;
      do! sha256 <- sha256_of path;
      let file := {| file_name := name;
                     file_sha256 := sha256;
                     file_description := description;
                     file_classification := classification |} in
      io_ret {| _working_directory := _working_directory self;
                drop_file := drop_file self;
                extracted := extracted self ++ [file];
                supplementary := supplementary self;
                service_name := service_name self;
                task_sha256 := task_sha256 self |}
  end.

(** [Task.add_supplementary] *)
Definition add_supplementary (self : Task) (path name description : string)
    (classification : option string) : io Task :=
  match _working_directory self with
  | None => io_raise TypeError
  | Some working_directory =>
      let file_path := path_join working_directory name in
      let folder_path := path_dirname path in
      do! _ <- ensure_folder folder_path;
      do! _ <- move_unless_exists name file_path;
      do! sha256 <- sha256_of path;
      let file := {| file_name := name;
                     file_sha256 := sha256;
                     file_description := description;
                     file_classification := classification |} in
      io_ret {| _working_directory := _working_directory self;
                drop_file := drop_file self;
                extracted := extracted self;
                supplementary := supplementary self ++ [file];
                service_name := service_name self;
                task_sha256 := task_sha256 self |}
  end.
End Task.

(** ** Reading of the specification *)

(** The value of one occurrence of a signature, in the words of the
    specification: the override of the manifest when there is one, the base
    score otherwise. *)
Definition signature_value (d : HeuristicDefinition) (sig_name : string) : Z :=
  match def_signature_score_map d !! sig_name with
  | Some override => override
  | None => def_score d
  end.

(** The score the specification derives from a signature mapping: the sum,
    over the signatures, of value times count. *)
Definition signatures_score (d : HeuristicDefinition) (m : gmap string Z) : Z :=
  map_fold (fun sig_name count acc => acc + signature_value d sig_name * count)
           0 m.

(** Pre-order walk of a section tree, in the words of the specification:
    the node, then each child with its own subtree, in list order. *)
Fixpoint preorder (section : ResultSection) : list ResultSection :=
  section :: flat_map preorder (subsections section).

(** Number of nodes of a section tree. *)
Fixpoint tree_size (section : ResultSection) : nat :=
  S (list_sum (map tree_size (subsections section))).

(** The score a section carries: the score of its heuristic, 0 without. *)
Definition heuristic_score (section : ResultSection) : Z :=
  match heuristic section with
  | Some h => score h
  | None => 0
  end.

(** Sum of a list of integers. *)
Definition sumZ (l : list Z) : Z := foldr Z.add 0 l.

(** No node of the tree was finalized before. *)
Fixpoint fresh (section : ResultSection) : bool :=
  negb (_finalized section) && forallb fresh (subsections section).

(** No section object is held twice in the trees of the list: every [oid]
    occurs once. *)
Definition unshared (l : list ResultSection) : bool :=
  bool_decide (NoDup (oid <$> flat_map preorder l)).

(** ** Auxiliary definitions for the proofs *)

(** The signature mapping a new heuristic holds: the given mapping, with the
    count of the given signature raised by one. *)
Definition merged_signatures (signature : option string)
    (sigs : option (gmap string Z)) : gmap string Z :=
  match signature with
  | Some s => if truthy signature then bump s 1 (default ∅ sigs)
              else default ∅ sigs
  | None => default ∅ sigs
  end.

(** The text [add_tag] stores for a value. *)
Definition tag_text `{Collaborators} (value : tag_value) : option string :=
  match value with
  | Str s => Some s
  | Bytes b => decode b
  end.


(** What [finalize] leaves untouched in a section. *)
Definition payload (s : ResultSection)
    : positive * string * option string * BODY_FORMAT
      * gmap string (list string) * option Heuristic :=
  (oid s, title_text s, body s, body_format s, tags s, heuristic s).

(** The depths [finalize] assigns, in pre-order. *)
Fixpoint preorder_depths (d : Z) (s : ResultSection) : list Z :=
  d :: flat_map (preorder_depths (d + 1)) (subsections s).

Section Loops.
Context `{Collaborators}.

(** The loop over the subsections in [finalize], on its own. *)
Fixpoint finalize_loop (all_subs : list ResultSection) (depth : Z)
    (subs : list ResultSection) (cls : string)
    : result (list ResultSection * string) :=
  match subs with
  | [] => OK ([], cls)
  | subsection :: rest =>
      try! child <- finalize subsection (depth + 1) (Some cls);
      let '(subsection', _, cls') := child in
      try! others <- finalize_loop all_subs depth rest (default cls cls');
      let '(tmp_subs, cls'') := others in
      OK (if section_in subsection' all_subs
          then subsection' :: tmp_subs else tmp_subs, cls'')
  end.

(** The loop over the subsections in [_flatten_sections], on its own. *)
Fixpoint flatten_loop (subs : list ResultSection)
    (flattened : list FlatSection) : list FlatSection :=
  match subs with
  | [] => flattened
  | subsection :: rest =>
      let flattened := _append_section flattened subsection in
      let flattened :=
        match subsections subsection with
        | _ :: _ => _flatten_sections subsection false flattened
        | [] => flattened
        end in
      flatten_loop rest flattened
  end.

(** The score one flat record adds in the scoring loop. *)
Definition record_score (r : FlatSection) : Z :=
  match flat_heuristic r with
  | Some heuristic => prim_score heuristic
  | None => 0
  end.
End Loops.

(** ** A concrete service, for evaluating the code *)

Module Demo.

(** A manifest with four heuristics; heuristic 2 overrides the score of
    the signature [sig_a]. *)
Definition manifest : gmap Z HeuristicDefinition :=
  <[1 := mkDefinition 10 [] ∅]>
  (<[2 := mkDefinition 5 [] {["sig_a" := 100]}]>
  (<[3 := mkDefinition 3 ["T1001"] ∅]>
  (<[4 := mkDefinition (-1000) [] ∅]> ∅))).

(** A classification engine with two levels, [U] below [R]; any other
    label is invalid. *)
Definition level (c : string) : option nat :=
  if String.eqb c "U" then Some 0%nat
  else if String.eqb c "R" then Some 1%nat
  else None.

Definition max_level (a b : string) : option string :=
  match level a, level b with
  | Some x, Some y => Some (if Nat.leb x y then b else a)
  | _, _ => None
  end.

(** Decoding of ASCII bytes; a byte above 127 cannot be decoded. *)
Fixpoint decode_ascii (b : list Byte.byte) : option string :=
  match b with
  | [] => Some ""
  | x :: b' =>
      if (Byte.to_N x <? 128)%N
      then option_map (String (Ascii.ascii_of_byte x)) (decode_ascii b')
      else None
  end.

Definition service : Collaborators :=
  {| HEUR_LIST := manifest;
     attack_map := {["T1001"; "T1002"]};
     max_classification := max_level;
     default_result_classification := "U";
     decode := decode_ascii;
     TagTree := gmap string (list string);
     unflatten := fun t => t |}.

(** A leaf section as [ResultSection(title, classification=c,
    heuristic=h)] builds it. *)
Definition leaf (o : positive) (title c : string) (h : option Heuristic)
    : ResultSection :=
  ResultSection_init (H := service) o title None (Some c) TEXT h None.

(** [Heuristic(heur_id)], or nothing when the constructor raises. *)
Definition heur (heur_id : Z) : option Heuristic :=
  match Heuristic_init (H := service) heur_id None None None None 1 with
  | OK h => Some h
  | Raise _ => None
  end.

(** The tree of the specification: root (10) with child1 (5) and child2
    (no heuristic), child2 with one grandchild (3). *)
Definition grandchild : ResultSection := leaf 4 "grandchild" "U" (heur 3).
Definition child1 : ResultSection := leaf 2 "child1" "U" (heur 2).
Definition child2 : ResultSection :=
  add_subsection (leaf 3 "child2" "U" None) grandchild false.
Definition root : ResultSection :=
  add_subsection (add_subsection (leaf 1 "root" "U" (heur 1)) child1 false)
                 child2 false.

(** A root with two children; the label of the second child is not one
    the engine knows, so merging it into the root raises. *)
Definition good_child : ResultSection := leaf 2 "good" "R" (heur 2).
Definition bad_child : ResultSection := leaf 3 "bad" "X//Y" (heur 3).
Definition mixed_root : ResultSection :=
  add_subsection (add_subsection (leaf 1 "root" "U" (heur 1)) good_child false)
                 bad_child false.

(** A heuristic of entry 2 of the manifest, as [Heuristic(2)] leaves it. *)
Definition sample_heuristic : Heuristic :=
  mkHeuristic (mkDefinition 5 [] {["sig_a" := 100]}) 2 [] 5 1 ∅.


(** A file system: absolute paths of the files with their content, the
    directories, and the current directory against which a relative path
    is resolved. *)
Record fs : Type := mkFs {
  cwd : string;
  files : gmap string string;
  dirs : gset string
}.

Definition is_abs (p : string) : bool := String.prefix "/" p.

Definition resolve (w : fs) (p : string) : string :=
  if is_abs p then p else cwd w +:+ "/" +:+ p.

(** [posixpath.join] of two components *)
Definition join (a b : string) : string :=
  if is_abs b then b
  else if String.eqb a "" then b
  else if String.eqb (String.substring (String.length a - 1) 1 a) "/"
       then a +:+ b
       else a +:+ "/" +:+ b.

Definition is_slash (c : Ascii.ascii) : bool := Ascii.eqb c "/"%char.

Fixpoint drop_while {A : Type} (f : A -> bool) (l : list A) : list A :=
  match l with
  | [] => []
  | x :: l' => if f x then drop_while f l' else l
  end.

(** [posixpath.dirname]: everything up to the last slash, without the
    trailing slashes unless it is made of slashes only. *)
Definition dirname (p : string) : string :=
  let rhead := drop_while (fun c => negb (is_slash c))
                          (rev (String.list_ascii_of_string p)) in
  if forallb is_slash rhead then String.string_of_list_ascii (rev rhead)
  else String.string_of_list_ascii (rev (drop_while is_slash rhead)).

Definition exists_ (w : fs) (p : string) : bool :=
  bool_decide (is_Some (files w !! resolve w p))
  || bool_decide (resolve w p ∈ dirs w).

(** [os.makedirs]: raises on the empty path and on an existing one. *)
Definition mkdirs (w : fs) (p : string) : option fs :=
  if String.eqb p "" then None
  else if exists_ w p then None
  else Some {| cwd := cwd w; files := files w;
               dirs := {[resolve w p]} ∪ dirs w |}.

(** [shutil.move] of a file to a path that does not exist: raises when
    there is no file at the source. *)
Definition mv (w : fs) (src dst : string) : option fs :=
  match files w !! resolve w src with
  | Some content =>
      Some {| cwd := cwd w;
              files := <[resolve w dst := content]>
                         (delete (resolve w src) (files w));
              dirs := dirs w |}
  | None => None
  end.

(** A stand-in for the digest: it tells contents apart. *)
Definition digest (content : string) : string := "sha256:" +:+ content.

Definition sha256_at (w : fs) (p : string) : option string :=
  option_map digest (files w !! resolve w p).

Definition posix : OS :=
  {| filesystem := fs;
     path_join := join;
     path_dirname := dirname;
     path_exists := exists_;
     makedirs := mkdirs;
     move := mv;
     get_sha256_for_file := sha256_at |}.

(** A task whose working directory is [/wd]. *)
Definition task : Task :=
  {| _working_directory := Some "/wd"; drop_file := false;
     extracted := []; supplementary := [];
     service_name := "demo"; task_sha256 := "" |}.

(** The service runs in [/srv] and has written [/in/a.bin]. *)
Definition disk : fs :=
  {| cwd := "/srv";
     files := {["/in/a.bin" := "payload"]};
     dirs := {["/in"; "/wd"; "/srv"]} |}.

(** The same, with an unrelated file called [a.bin] in [/srv]. *)
Definition disk_with_namesake : fs :=
  {| cwd := "/srv";
     files := <["/srv/a.bin" := "other"]> {["/in/a.bin" := "payload"]};
     dirs := {["/in"; "/wd"; "/srv"]} |}.

End Demo.

(** ** Further operations of [result.py] and [task.py] *)

(** A sequence of calls on a heuristic after its construction. *)
Inductive heuristic_call : Type :=
  | AddAttackId (attack_id : string)
  | AddSignatureId (signature : string) (freq : Z)
  | IncrementFrequency (freq : Z).

Definition call_heuristic `{Collaborators} (self : Heuristic)
    (c : heuristic_call) : Heuristic :=
  match c with
  | AddAttackId a => add_attack_id self a
  | AddSignatureId s n => add_signature_id self s n
  | IncrementFrequency n => increment_frequency self n
  end.

(** The score a heuristic has when it is computed afresh from its
    signature counts and its frequency counter. *)
Definition recomputed_score (h : Heuristic) : Z :=
  signatures_score (definition h) (signatures h)
  + def_score (definition h) * frequency h.

(** The text [add_line] receives: [str] or a list of [str]. *)
Inductive line_text : Type :=
  | Line (s : string)
  | Parts (l : list string).

(** The string made of a line feed. *)
Definition newline : string := String "010"%char "".

Definition set_body_field (self : ResultSection)
    (b : option string) : ResultSection :=
  {| oid := oid self; _finalized := _finalized self;
     subsections := subsections self;
     body := b; classification := classification self;
     body_format := body_format self; depth := depth self;
     tags := tags self; heuristic := heuristic self;
     title_text := title_text self |}.

Section Lines.
Variable safe_str : string -> string.

(** [ResultSection.add_line]; [safe_str] is
    [assemblyline.common.str_utils.safe_str]. *)
Definition add_line (self : ResultSection) (text : line_text)
    : ResultSection :=
  let text := match text with
              | Line s => s
              | Parts l => String.concat "" l
              end in
  let textstr := safe_str text in
  match body self with
  | Some b =>
      if truthy (body self)
      then set_body_field self (Some (b +:+ (newline +:+ textstr)))
      else set_body_field self (Some textstr)
  | None => set_body_field self (Some textstr)
  end.
End Lines.

(** [ResultSection.add_lines] on a list; the branch for an argument that is
    not a list only logs. *)
Definition add_lines (self : ResultSection) (line_list : list string)
    : ResultSection :=
  let segment := String.concat newline line_list in
  match body self with
  | None => set_body_field self (Some segment)
  | Some b => set_body_field self (Some (b +:+ newline +:+ segment))
  end.


(** [Task.clear_extracted] *)
Definition clear_extracted (self : Task) : Task :=
  {| _working_directory := _working_directory self;
     drop_file := drop_file self;
     extracted := [];
     supplementary := supplementary self;
     service_name := service_name self;
     task_sha256 := task_sha256 self |}.

(** [Task.clear_supplementary] *)
Definition clear_supplementary (self : Task) : Task :=
  {| _working_directory := _working_directory self;
     drop_file := drop_file self;
     extracted := extracted self;
     supplementary := [];
     service_name := service_name self;
     task_sha256 := task_sha256 self |}.

(** [Task.drop] *)
Definition drop (self : Task) : Task :=
  {| _working_directory := _working_directory self;
     drop_file := true;
     extracted := extracted self;
     supplementary := supplementary self;
     service_name := service_name self;
     task_sha256 := task_sha256 self |}.

(** What [download_file] raises: [Exception(message)], or what the digest
    helper raised. *)
Inductive download_error : Type :=
  | Exception (message : string)
  | Propagated (e : exn).

Section TaskPaths.
Context `{OS}.
(** [tempfile.gettempdir()] *)
Variable gettempdir : string.
(** [os.path.isdir] *)
Variable isdir : filesystem -> string -> bool.
(** [str.lower] *)
Variable lower : string -> string.

(** [os.path.join] of four components *)
Definition path_join4 (a b c d : string) : string :=
  path_join (path_join (path_join a b) c) d.

(** [Task.download_file] *)
Definition download_file (self : Task) (w : filesystem)
    : download_error + string :=
  let file_path :=
    path_join4 gettempdir (service_name self) "received" (task_sha256 self) in
  if negb (path_exists w file_path) then
    inl (Exception
           "File download failed. File not found on local filesystem.")
  else
    match get_sha256_for_file w file_path with
    | None => inl (Propagated OSError)
    | Some received_sha256 =>
        if negb (String.eqb received_sha256 (task_sha256 self)) then
          inl (Exception
                 ("SHA256 mismatch between requested and downloaded file. "
                  +:+ task_sha256 self +:+ " != " +:+ received_sha256))
        else inr file_path
    end.

(** [Task.working_directory]: the task after the call and the returned
    path. *)
Definition working_directory (self : Task) : io (Task * string) :=
  fun w =>
    let temp_dir :=
      path_join (path_join gettempdir (lower (service_name self)))
                "completed" in
    let made :=
      if negb (isdir w temp_dir) then makedirs w temp_dir else Some w in
    match made with
    | None => (w, Raise OSError)
    | Some w' =>
        match _working_directory self with
        | None =>
            (w', OK ({| _working_directory := Some temp_dir;
                        drop_file := drop_file self;
                        extracted := extracted self;
                        supplementary := supplementary self;
                        service_name := service_name self;
                        task_sha256 := task_sha256 self |}, temp_dir))
        | Some stored => (w', OK (self, stored))
        end
    end.
End TaskPaths.

(** A service whose classification engine never fails: the label of the
    higher rank wins, [R] ranking above every other label. *)
Module Open.

Definition rank (c : string) : nat := if String.eqb c "R" then 1%nat else 0%nat.

Definition join (a b : string) : string :=
  if Nat.leb (rank a) (rank b) then b else a.

Definition service : Collaborators :=
  {| HEUR_LIST := Demo.manifest;
     attack_map := {["T1001"; "T1002"]};
     max_classification := fun a b => Some (join a b);
     default_result_classification := "U";
     decode := Demo.decode_ascii;
     TagTree := gmap string (list string);
     unflatten := fun t => t |}.


(** A new section holding a section that a former run finalized. *)
Definition stale : ResultSection :=
  add_subsection
    (ResultSection_init (H := service) 9 "again" None (Some "U") TEXT None None)
    {| oid := 8; _finalized := true; subsections := []; body := None;
       classification := "U"; body_format := TEXT; depth := 2; tags := ∅;
       heuristic := None; title_text := "old" |}
    false.


(** The disk of [Demo.disk] once the service has put its file in the
    working directory. *)
Definition disk_staged : Demo.fs :=
  {| Demo.cwd := "/srv";
     Demo.files := {["/wd/a.bin" := "payload"]};
     Demo.dirs := {["/wd"; "/srv"; "/tmp"; "/tmp/demo"; "/tmp/demo/received"]} |}.

(** The disk with the file the task expects in the place where
    [download_file] looks for it, and the same with another content. *)
Definition disk_received : Demo.fs :=
  {| Demo.cwd := "/srv";
     Demo.files := {["/tmp/Demo/received/sha256:payload" := "payload"]};
     Demo.dirs := {["/tmp"; "/tmp/Demo"; "/tmp/Demo/received"]} |}.

Definition disk_tampered : Demo.fs :=
  {| Demo.cwd := "/srv";
     Demo.files := {["/tmp/Demo/received/sha256:payload" := "tampered"]};
     Demo.dirs := {["/tmp"; "/tmp/Demo"; "/tmp/Demo/received"]} |}.

(** A task that expects the file whose digest is that of [payload]. *)
Definition task : Task :=
  {| _working_directory := None; drop_file := false;
     extracted := []; supplementary := [];
     service_name := "Demo"; task_sha256 := Demo.digest "payload" |}.

(** ASCII lower case. *)
Fixpoint lower_ascii (s : string) : string :=
  match s with
  | EmptyString => EmptyString
  | String c s' =>
      let n := Ascii.nat_of_ascii c in
      String (if (Nat.leb 65 n && Nat.leb n 90)%bool
              then Ascii.ascii_of_nat (n + 32) else c)
             (lower_ascii s')
  end.

Definition is_dir (w : Demo.fs) (p : string) : bool :=
  bool_decide (Demo.resolve w p ∈ Demo.dirs w).

End Open.

(** The lines of a list after its leading empty lines. *)
Fixpoint skip_empty (l : list string) : list string :=
  match l with
  | [] => []
  | x :: l' => if String.eqb x "" then skip_empty l' else l
  end.

(** The attack ids the constructor is given: the list, then the single id
    when it is truthy. *)
Definition supplied_attack_ids (attack_id : option string)
    (attack_ids : option (list string)) : list string :=
  default [] attack_ids
  ++ match attack_id with
     | Some a => if truthy attack_id then [a] else []
     | None => []
     end.

(** The string [add_line] appends for a text. *)
Definition line_string (safe_str : string -> string) (text : line_text)
    : string :=
  safe_str match text with
           | Line s => s
           | Parts l => String.concat "" l
           end.

(** The record both [add_extracted] and [add_supplementary] build. *)
Definition file_record (name sha256 description : string)
    (classification : option string) : File :=
  {| file_name := name;
     file_sha256 := sha256;
     file_description := description;
     file_classification := classification |}.

Example dirname_abs : Demo.dirname "/in/a.bin" = "/in".
Proof. reflexivity. Qed.

Example dirname_bare : Demo.dirname "a.bin" = "".
Proof. reflexivity. Qed.

Example join_wd : Demo.join "/wd" "a.bin" = "/wd/a.bin".
Proof. reflexivity. Qed.

(** * Properties *)

(** ** Scores of heuristics *)

Lemma add_signature_score_value d sig_name freq running :
  add_signature_score d sig_name freq running
  = running + signature_value d sig_name * freq.
Proof.
  unfold add_signature_score, signature_value.
  by destruct (def_signature_score_map d !! sig_name).
Qed.

(** The loop of the constructor adds the score of the mapping to whatever
    the score was before the loop. *)
Lemma fold_signature_scores d (m : gmap string Z) start :
  map_fold (add_signature_score d) start m = start + signatures_score d m.
Proof.
  unfold signatures_score. rewrite !map_fold_foldr.
  induction (map_to_list m) as [|[k n] l IH]; simpl.
  - lia.
  - rewrite add_signature_score_value, IH. lia.
Qed.

Lemma signatures_score_empty d : signatures_score d ∅ = 0.
Proof. unfold signatures_score. by rewrite map_fold_empty. Qed.

Lemma signatures_score_fresh d (m : gmap string Z) k n :
  m !! k = None ->
  signatures_score d (<[k := n]> m)
  = signatures_score d m + signature_value d k * n.
Proof.
  intros Hk. unfold signatures_score.
  rewrite map_fold_insert_L; [done | | done].
  intros. lia.
Qed.

Lemma signatures_score_present d (m : gmap string Z) k n :
  m !! k = Some n ->
  signatures_score d m
  = signatures_score d (delete k m) + signature_value d k * n.
Proof.
  intros Hk. unfold signatures_score.
  rewrite (map_fold_delete_L _ _ k n m); [done | | done].
  intros. lia.
Qed.

(** Raising the count of a signature by [n] raises the score of the mapping
    by [n] times the value of the signature. *)
Lemma signatures_score_bump d (m : gmap string Z) k n :
  signatures_score d (bump k n m)
  = signatures_score d m + signature_value d k * n.
Proof.
  unfold bump. destruct (m !! k) as [c|] eqn:Hk; simpl.
  - rewrite <- (insert_delete_eq m k (c + n)).
    rewrite signatures_score_fresh by apply lookup_delete_eq.
    rewrite (signatures_score_present d m k c Hk). lia.
  - rewrite signatures_score_fresh by done. lia.
Qed.

Lemma bump_nonempty k n (m : gmap string Z) : bump k n m ≠ ∅.
Proof. apply insert_non_empty. Qed.

Lemma truthy_Some s : s ≠ "" -> truthy (Some s) = true.
Proof.
  intros Hs. simpl. destruct (String.eqb_spec s ""); [done | reflexivity].
Qed.

Section HeuristicFacts.
Context `{Collaborators}.

(** What the constructor builds for an identifier of the manifest. *)
Lemma Heuristic_init_known heur_id d attack_id signature attack_ids
    sigs freq :
  HEUR_LIST !! heur_id = Some d ->
  exists h,
    Heuristic_init heur_id attack_id signature attack_ids sigs freq
    = OK h
    /\ definition h = d
    /\ signatures h = merged_signatures signature sigs
    /\ (signatures h = ∅ ->
        frequency h = freq /\ score h = def_score d * freq)
    /\ (signatures h ≠ ∅ ->
        frequency h = 0 /\ score h = signatures_score d (signatures h)).
Proof.
  intros Hd. unfold Heuristic_init. rewrite Hd.
  fold (merged_signatures signature sigs).
  destruct (decide (merged_signatures signature sigs = ∅)) as [He|Hne];
    eexists; (split; [reflexivity|]); simpl; repeat split; try done.
  - rewrite He, map_fold_empty. lia.
  - rewrite fold_signature_scores. lia.
Qed.

Lemma Heuristic_init_unknown heur_id attack_id signature attack_ids
    sigs freq :
  HEUR_LIST !! heur_id = None ->
  Heuristic_init heur_id attack_id signature attack_ids sigs freq
  = Raise InvalidHeuristicException.
Proof. intros Hd. unfold Heuristic_init. by rewrite Hd. Qed.
End HeuristicFacts.

Lemma merged_signatures_falsy signature sigs :
  truthy signature = false ->
  merged_signatures signature sigs = default ∅ sigs.
Proof.
  intros Hs. unfold merged_signatures.
  destruct signature; [by rewrite Hs | done].
Qed.

Lemma merged_signatures_truthy s sigs :
  s ≠ "" ->
  merged_signatures (Some s) sigs = bump s 1 (default ∅ sigs).
Proof.
  intros Hs. unfold merged_signatures. by rewrite (truthy_Some s Hs).
Qed.

(** C4: for a heuristic identifier of the manifest, the constructor called
    without a signature, without a signature mapping and with frequency 1
    gives a heuristic whose score is the base score of the manifest entry;
    for an identifier that is not in the manifest it raises
    InvalidHeuristicException. *)
Theorem Heuristic_init_base_score `{Collaborators} (heur_id : Z)
    (attack_id signature : option string) (attack_ids : option (list string))
    (sigs : option (gmap string Z)) :
  truthy signature = false ->
  default ∅ sigs = ∅ ->
  match HEUR_LIST !! heur_id with
  | Some d =>
      exists h,
        Heuristic_init heur_id attack_id signature attack_ids sigs 1
        = OK h
        /\ score h = def_score d /\ frequency h = 1
  | None =>
      Heuristic_init heur_id attack_id signature attack_ids sigs 1
      = Raise InvalidHeuristicException
  end.
Proof.
  intros Hsig Hmap.
  destruct (HEUR_LIST !! heur_id) as [d|] eqn:Hd.
  - destruct (Heuristic_init_known heur_id d attack_id signature attack_ids
                sigs 1 Hd) as (h & Hh & _ & Hs & Hempty & _).
    rewrite merged_signatures_falsy, Hmap in Hs by done.
    destruct (Hempty Hs) as [Hf Hsc].
    exists h. repeat split; [done | lia | done].
  - by apply Heuristic_init_unknown.
Qed.

Lemma Heuristic_init_base_score_witness :
  exists h,
    Heuristic_init (H := Demo.service) 1 None None None None 1 = OK h
    /\ score h = 10 /\ frequency h = 1.
Proof.
  exact (Heuristic_init_base_score (H := Demo.service) 1 None None None None
           eq_refl eq_refl).
Defined.

(** C5: every occurrence of a signature counts at the override of the
    manifest when the manifest has one for it, and at the base score
    otherwise: [add_signature_id] with count [n] adds that value times [n]
    to the score, and the constructor called with a signature adds that
    value once to the score of the given mapping. *)
Theorem signature_counts_at_its_value `{Collaborators} :
  (forall (h : Heuristic) (sig_name : string) (n : Z),
     score (add_signature_id h sig_name n)
     = score h
       + match def_signature_score_map (definition h) !! sig_name with
         | Some override => override * n
         | None => def_score (definition h) * n
         end)
  /\ (forall heur_id d attack_id attack_ids (s : string)
        (sigs : option (gmap string Z)) freq,
        HEUR_LIST !! heur_id = Some d ->
        s ≠ "" ->
        exists h,
          Heuristic_init heur_id attack_id (Some s) attack_ids sigs freq
          = OK h
          /\ score h
             = signatures_score d (default ∅ sigs)
               + match def_signature_score_map d !! s with
                 | Some override => override * 1
                 | None => def_score d * 1
                 end).
Proof.
  split.
  - intros h sig_name n. simpl. unfold add_signature_score.
    destruct (def_signature_score_map (definition h) !! sig_name); lia.
  - intros heur_id d attack_id attack_ids s sigs freq Hd Hs.
    destruct (Heuristic_init_known heur_id d attack_id (Some s) attack_ids
                sigs freq Hd) as (h & Hh & _ & Hm & _ & Hfull).
    rewrite merged_signatures_truthy in Hm by done.
    destruct Hfull as [_ Hsc]; [rewrite Hm; apply bump_nonempty|].
    exists h. split; [done|].
    rewrite Hsc, Hm, signatures_score_bump. unfold signature_value.
    by destruct (def_signature_score_map d !! s).
Qed.

Lemma signature_counts_at_its_value_witness :
  exists h,
    Heuristic_init (H := Demo.service) 2 None (Some "sig_a") None
      (Some {["sig_b" := 2]}) 7 = OK h
    /\ score h = 110.
Proof.
  destruct (proj2 (signature_counts_at_its_value (H := Demo.service))
              2 (mkDefinition 5 [] {["sig_a" := 100]}) None None "sig_a"
              (Some {["sig_b" := 2]}) 7 eq_refl ltac:(discriminate))
    as (h & Hh & Hs).
  exists h. split; [exact Hh|]. rewrite Hs. reflexivity.
Defined.

Lemma merged_signatures_nonempty signature sigs :
  truthy signature = true \/ default ∅ sigs ≠ ∅ ->
  merged_signatures signature sigs ≠ ∅.
Proof.
  unfold merged_signatures. intros [Ht|Hm].
  - destruct signature as [s|]; [|discriminate]. rewrite Ht.
    apply bump_nonempty.
  - destruct signature as [s|]; [|done].
    destruct (truthy (Some s)); [apply bump_nonempty | done].
Qed.

(** C10: when the constructor receives a signature (a non-empty string) or a
    non-empty signature mapping, the frequency argument plays no part: the
    heuristic is the same for every frequency, its frequency counter is 0,
    and its score is the sum over its signatures of the override or base
    score times the count of the signature. *)
Theorem frequency_ignored_with_signatures `{Collaborators} (heur_id : Z)
    (d : HeuristicDefinition) (attack_id signature : option string)
    (attack_ids : option (list string)) (sigs : option (gmap string Z)) :
  HEUR_LIST !! heur_id = Some d ->
  truthy signature = true \/ default ∅ sigs ≠ ∅ ->
  exists h,
    (forall freq,
       Heuristic_init heur_id attack_id signature attack_ids sigs freq = OK h)
    /\ frequency h = 0
    /\ signatures h = merged_signatures signature sigs
    /\ score h = signatures_score d (signatures h).
Proof.
  intros Hd Hsig. apply merged_signatures_nonempty in Hsig.
  unfold Heuristic_init. rewrite Hd.
  fold (merged_signatures signature sigs).
  destruct (decide (merged_signatures signature sigs = ∅)) as [He|_];
    [done|].
  eexists. split; [intros freq; reflexivity|]. simpl.
  repeat split. rewrite fold_signature_scores. lia.
Qed.

Lemma frequency_ignored_with_signatures_witness :
  exists h,
    (forall freq,
       Heuristic_init (H := Demo.service) 2 None (Some "sig_a") None None freq
       = OK h)
    /\ frequency h = 0
    /\ signatures h = merged_signatures (Some "sig_a") None
    /\ score h
       = signatures_score (mkDefinition 5 [] {["sig_a" := 100]}) (signatures h).
Proof.
  exact (frequency_ignored_with_signatures (H := Demo.service) 2
           (mkDefinition 5 [] {["sig_a" := 100]}) None (Some "sig_a") None None
           eq_refl (or_introl eq_refl)).
Defined.

(** With an empty string as signature and no mapping the frequency argument
    is used after all: the empty string is falsy. *)
Example empty_signature_uses_frequency :
  exists h,
    Heuristic_init (H := Demo.service) 1 None (Some "") None None 5 = OK h
    /\ frequency h = 5 /\ score h = 50.
Proof. eexists. repeat split. Qed.

(** C6, as stated, fails, for each of the two methods: the heuristic
    [Heuristic(1)] of the demo manifest has score 10, and
    [add_signature_id("sig", -1)] brings it down to 0, and so does
    [increment_frequency(-1)]. *)
Lemma score_can_decrease :
  ~ (forall (C : Collaborators) (heur_id : Z) (h : Heuristic)
       (sig_name : string) (n : Z),
       Heuristic_init heur_id None None None None 1 = OK h ->
       score h <= score (add_signature_id h sig_name n))
  /\ ~ (forall (C : Collaborators) (heur_id : Z) (h : Heuristic) (n : Z),
         Heuristic_init heur_id None None None None 1 = OK h ->
         score h <= score (increment_frequency h n)).
Proof.
  split; intros Hall.
  - pose proof (Hall Demo.service 1 _ "sig" (-1) eq_refl) as Hadd.
    vm_compute in Hadd. by apply Hadd.
  - pose proof (Hall Demo.service 1 _ (-1) eq_refl) as Hinc.
    vm_compute in Hinc. by apply Hinc.
Qed.

(** The same with the default frequency and a manifest entry whose base
    score is negative. *)
Example negative_base_score_decreases :
  exists h,
    Heuristic_init (H := Demo.service) 4 None None None None 1 = OK h
    /\ score h = -1000
    /\ score (add_signature_id h "sig" 1) = -2000
    /\ score (increment_frequency h 1) = -2000.
Proof. eexists. repeat split. Qed.

(** C6, amended: every call of [add_signature_id] moves the score by
    exactly the value of the signature (the override of the manifest, or
    the base score) times the frequency, and every call of
    [increment_frequency] by exactly the base score times the frequency,
    whatever the signs; when the frequency, the base score and the overrides
    of the manifest entry are not negative, the score after the call is not
    below the score before it. *)
Theorem score_monotone_when_nonnegative (h : Heuristic) (sig_name : string)
    (n : Z) :
  score (add_signature_id h sig_name n)
  = score h
    + match def_signature_score_map (definition h) !! sig_name with
      | Some override => override * n
      | None => def_score (definition h) * n
      end
  /\ score (increment_frequency h n) = score h + def_score (definition h) * n
  /\ (0 <= n ->
      0 <= def_score (definition h) ->
      (forall k o,
         def_signature_score_map (definition h) !! k = Some o -> 0 <= o) ->
      score h <= score (add_signature_id h sig_name n)
      /\ score h <= score (increment_frequency h n)).
Proof.
  split; [|split].
  - simpl. unfold add_signature_score.
    destruct (def_signature_score_map (definition h) !! sig_name); lia.
  - reflexivity.
  - intros Hn Hbase Hover.
    assert (0 <= signature_value (definition h) sig_name) as Hv.
    { unfold signature_value.
      destruct (def_signature_score_map (definition h) !! sig_name) eqn:E;
        [by eapply Hover | done]. }
    simpl. rewrite add_signature_score_value. split; nia.
Qed.

Lemma score_monotone_when_nonnegative_witness :
  score (add_signature_id Demo.sample_heuristic "sig_a" 2) = 205
  /\ score (increment_frequency Demo.sample_heuristic (-2)) = -5
  /\ score Demo.sample_heuristic
     <= score (add_signature_id Demo.sample_heuristic "sig_a" 2)
  /\ score Demo.sample_heuristic
     <= score (increment_frequency Demo.sample_heuristic 2).
Proof.
  assert (forall k o,
            def_signature_score_map (definition Demo.sample_heuristic) !! k
            = Some o -> 0 <= o)
    as Hover.
  { intros k o. simpl. intros [_ <-]%lookup_singleton_Some. lia. }
  destruct (score_monotone_when_nonnegative Demo.sample_heuristic "sig_a" 2)
    as (Hadd & _ & Hmono).
  destruct (score_monotone_when_nonnegative Demo.sample_heuristic "sig_a" (-2))
    as (_ & Hinc & _).
  destruct (Hmono ltac:(lia) ltac:(simpl; lia) Hover) as (Hle1 & Hle2).
  split; [rewrite Hadd; reflexivity|].
  split; [rewrite Hinc; reflexivity|].
  split; assumption.
Defined.

(** ** Sections: heuristics and tags *)




Section SectionFacts.
Context `{Collaborators}.

(** What a successful [add_tag] leaves in [self.tags]. *)
Lemma add_tag_tags (s s1 : ResultSection) (tag_type : string)
    (value : tag_value) :
  add_tag s tag_type value = OK s1 ->
  exists x,
    tag_text value = Some x
    /\ let old := default [] (tags s !! tag_type) in
       tags s1
       = <[tag_type := if decide (x ∈ old) then old else old ++ [x]]> (tags s)
       /\ s1 = set_tags s (tags s1).
Proof.
  unfold add_tag, tag_text.
  destruct value as [x|b]; [|destruct (decode b) as [x|]]; simpl;
    try discriminate; intros [= <-]; exists x; (split; [done|]); simpl.
  all: destruct (tags s !! tag_type) as [old|] eqn:Ht; simpl.
  all: rewrite ?Ht, ?lookup_insert_eq; simpl.
  all: try (destruct (decide (x ∈ old)); split; try done;
            by rewrite insert_id).
  all: by rewrite insert_insert_eq.
Qed.
End SectionFacts.




(** A section that holds a heuristic refuses [set_heuristic], whatever the
    arguments. *)
Lemma set_heuristic_refused `{Collaborators} (s : ResultSection) (h : Heuristic)
    heur_id attack_id signature :
  heuristic s = Some h ->
  set_heuristic s heur_id attack_id signature = Raise InvalidHeuristicException.
Proof. intros Hh. unfold set_heuristic. by rewrite Hh. Qed.

(** C7: [set_heuristic] on a section that already holds a heuristic raises
    InvalidHeuristicException; a call that succeeds starts from a section
    without heuristic and leaves the one it built, so the call after it
    raises, whatever its arguments: two calls never both succeed and a
    section never holds more than the one heuristic. *)
Theorem set_heuristic_twice_fails `{Collaborators} (s : ResultSection)
    (heur_id heur_id' : Z) (attack_id signature attack_id' signature'
      : option string) :
  (forall h, heuristic s = Some h ->
     set_heuristic s heur_id' attack_id' signature'
     = Raise InvalidHeuristicException)
  /\ (forall s1, set_heuristic s heur_id attack_id signature = OK s1 ->
       heuristic s = None
       /\ (exists h, heuristic s1 = Some h
                     /\ Heuristic_init heur_id attack_id signature None None 1
                        = OK h)
       /\ set_heuristic s1 heur_id' attack_id' signature'
          = Raise InvalidHeuristicException).
Proof.
  split; [intros h Hh; by eapply set_heuristic_refused|].
  intros s1. unfold set_heuristic at 1.
  destruct (heuristic s) as [h0|] eqn:Hh; [discriminate|].
  destruct (Heuristic_init heur_id attack_id signature None None 1)
    as [h|e]; simpl; [|discriminate].
  intros [= <-]. split; [done|]. split; [by exists h|].
  by apply (set_heuristic_refused _ h).
Qed.

Lemma set_heuristic_twice_fails_witness :
  exists s1,
    set_heuristic (H := Demo.service) (Demo.leaf 1 "t" "U" None) 1 None None
    = OK s1
    /\ set_heuristic (H := Demo.service) s1 2 None (Some "sig_a")
       = Raise InvalidHeuristicException.
Proof.
  eexists. split; [reflexivity|].
  exact (proj2 (proj2 (proj2 (set_heuristic_twice_fails (H := Demo.service)
                         (Demo.leaf 1 "t" "U" None) 1 2 None None None
                         (Some "sig_a")) _ eq_refl))).
Defined.

(** ** Finalizing a section tree *)

(** Induction on section trees: a property that holds of a section whenever
    it holds of its subsections holds of every section. *)
Lemma ResultSection_tree_ind (P : ResultSection -> Prop) :
  (forall s, Forall P (subsections s) -> P s) -> forall s, P s.
Proof.
  intros step.
  fix IH 1. intros s. apply step.
  destruct s as [o f subs b c bf d t h ti]. simpl.
  induction subs as [|x subs IHsubs]; constructor; [apply IH | exact IHsubs].
Qed.

Section FinalizeFacts.
Context `{Collaborators}.

Lemma finalize_eq (self : ResultSection) (depth : Z) (parent : option string) :
  finalize self depth parent
  = if _finalized self then Raise ResultAggregationException else
    try! children <- finalize_loop (subsections self) depth
                       (subsections self) (classification self);
    let '(tmp_subs, cls) := children in
    let self' :=
      {| oid := oid self; _finalized := true; subsections := tmp_subs;
         body := body self; classification := cls;
         body_format := body_format self; depth := depth;
         tags := tags self; heuristic := heuristic self;
         title_text := title_text self |} in
    match parent with
    | Some parent_classification =>
        match max_classification cls parent_classification with
        | Some m => OK (self', true, Some m)
        | None => OK (self', false, Some parent_classification)
        end
    | None => OK (self', true, None)
    end.
Proof.
  destruct self as [o f subs b c bf d t h ti]. simpl.
  destruct f; [reflexivity|].
  f_equal.
  generalize subs at 1 3 as all_subs. intros all_subs. revert c.
  induction subs as [|x subs IH]; intros c; simpl; [reflexivity|].
  destruct (finalize x (depth + 1) (Some c)) as [[[x' k] c']|e]; simpl;
    [|reflexivity].
  by rewrite IH.
Qed.
End FinalizeFacts.

Section FinalizeProperties.
Context `{Collaborators}.

Lemma section_in_same_oid (x x' : ResultSection) (l : list ResultSection) :
  oid x' = oid x -> x ∈ l -> section_in x' l = true.
Proof.
  intros Ho Hx. unfold section_in. apply bool_decide_eq_true.
  rewrite Ho. apply list_elem_of_fmap. by exists x.
Qed.

(** With a Result, or nothing, as parent, [finalize] answers "keep". *)
Lemma finalize_top_keeps (s s' : ResultSection) depth keep_me parent' :
  finalize s depth None = OK (s', keep_me, parent') -> keep_me = true.
Proof.
  rewrite finalize_eq. destruct (_finalized s); [discriminate|].
  destruct (finalize_loop _ _ _ _) as [[tmp cls]|e]; simpl;
    [|discriminate].
  by intros [= _ <- _].
Qed.

(** The shape of a finalized section. *)
Lemma finalize_inv (s s' : ResultSection) d parent keep_me parent' :
  finalize s d parent = OK (s', keep_me, parent') ->
  _finalized s = false
  /\ exists tmp_subs cls,
       finalize_loop (subsections s) d (subsections s) (classification s)
       = OK (tmp_subs, cls)
       /\ payload s' = payload s
       /\ _finalized s' = true
       /\ subsections s' = tmp_subs
       /\ classification s' = cls
       /\ depth s' = d.
Proof.
  rewrite finalize_eq. destruct (_finalized s); [discriminate|].
  destruct (finalize_loop _ _ _ _) as [[tmp cls]|e]; simpl;
    [|discriminate].
  intros Hs'. split; [done|]. exists tmp, cls. split; [done|].
  destruct parent as [pc|]; [destruct (max_classification cls pc)|];
    injection Hs' as <- _ _; done.
Qed.

(** C8: once [finalize] has returned for a section, a further call on
    that section raises ResultAggregationException, whatever the depth and
    the parent. *)
Theorem finalize_twice_raises (s s' : ResultSection) (d d' : Z)
    (parent parent' parent'' : option string) (keep_me : bool) :
  finalize s d parent = OK (s', keep_me, parent') ->
  finalize s' d' parent'' = Raise ResultAggregationException.
Proof.
  intros (_ & tmp & cls & _ & _ & Hf & _)%finalize_inv.
  rewrite finalize_eq. by rewrite Hf.
Qed.

(** [finalize] returns on a tree that was never finalized. *)
Lemma finalize_total (s : ResultSection) :
  fresh s = true ->
  forall d parent, exists r, finalize s d parent = OK r.
Proof.
  induction s as [s IH] using ResultSection_tree_ind.
  intros Hfresh d parent. rewrite finalize_eq.
  destruct s as [o f subs b c bf dp t h ti]. simpl in Hfresh, IH |- *.
  apply andb_prop in Hfresh as [Hf Hsubs].
  apply negb_true_iff in Hf. subst f.
  assert (forall all_subs cls,
            exists r, finalize_loop all_subs d subs cls = OK r) as Hloop.
  { intros all_subs.
    induction subs as [|x subs IHsubs]; intros cls; simpl; [by eexists|].
    apply andb_prop in Hsubs as [Hx Hsubs].
    apply Forall_cons in IH as [IHx IH].
    destruct (IHx Hx (d + 1) (Some cls)) as [[[x' k] c'] ->]. simpl.
    destruct (IHsubs IH Hsubs (default cls c')) as [[tmp c''] ->]. simpl.
    by eexists. }
  destruct (Hloop subs c) as [[tmp cls] ->]. simpl.
  destruct parent as [pc|]; [destruct (max_classification cls pc)|];
    by eexists.
Qed.
End FinalizeProperties.

Lemma finalize_twice_raises_witness :
  exists s',
    finalize (H := Demo.service) Demo.root 0 None = OK (s', true, None)
    /\ finalize (H := Demo.service) s' 0 None
       = Raise ResultAggregationException.
Proof.
  eexists. split; [reflexivity|].
  exact (finalize_twice_raises (H := Demo.service) Demo.root _ 0 0 None None
           None true eq_refl).
Defined.

Lemma preorder_eq (s : ResultSection) :
  preorder s = s :: flat_map preorder (subsections s).
Proof. by destruct s. Qed.

Lemma preorder_depths_eq (d : Z) (s : ResultSection) :
  preorder_depths d s = d :: flat_map (preorder_depths (d + 1)) (subsections s).
Proof. by destruct s. Qed.

Lemma tree_size_eq (s : ResultSection) :
  tree_size s = S (list_sum (map tree_size (subsections s))).
Proof. by destruct s. Qed.

(** The pre-order walk visits every node once. *)
Lemma length_preorder (s : ResultSection) : length (preorder s) = tree_size s.
Proof.
  induction s as [s IH] using ResultSection_tree_ind.
  rewrite preorder_eq, tree_size_eq. simpl. f_equal.
  induction IH as [|x l Hx _ IHl]; simpl; [done|].
  by rewrite length_app, Hx, IHl.
Qed.

Section RetainedTree.
Context `{Collaborators}.

(** A finalized tree has the nodes of the tree it comes from, in the same
    places, each with the depth of its place; in particular [finalize]
    drops no subsection, whatever the subsection answered. *)
Lemma finalize_keeps_tree (s : ResultSection) :
  forall d parent s' keep_me parent',
    finalize s d parent = OK (s', keep_me, parent') ->
    map payload (preorder s') = map payload (preorder s)
    /\ map depth (preorder s') = preorder_depths d s
    /\ map oid (subsections s') = map oid (subsections s).
Proof.
  induction s as [s IH] using ResultSection_tree_ind.
  intros d parent s' keep_me parent' Hfin.
  apply finalize_inv in Hfin
    as (_ & tmp & cls & Hloop & Hpay & _ & Hsubs & _ & Hdepth).
  assert (forall subs cls0 tmp0 cls1,
            Forall (fun c => forall d parent s' keep_me parent',
                      finalize c d parent = OK (s', keep_me, parent') ->
                      map payload (preorder s') = map payload (preorder c)
                      /\ map depth (preorder s') = preorder_depths d c
                      /\ map oid (subsections s')
                         = map oid (subsections c)) subs ->
            (forall x, x ∈ subs -> x ∈ subsections s) ->
            finalize_loop (subsections s) d subs cls0 = OK (tmp0, cls1) ->
            map payload (flat_map preorder tmp0)
            = map payload (flat_map preorder subs)
            /\ map depth (flat_map preorder tmp0)
               = flat_map (preorder_depths (d + 1)) subs
            /\ map oid tmp0 = map oid subs) as Hgen.
  { clear. intros subs.
    induction subs as [|x subs IHsubs]; intros cls0 tmp0 cls1 IH Hin; simpl.
    - by intros [= <- _].
    - apply Forall_cons in IH as [IHx IH].
      destruct (finalize x (d + 1) (Some cls0)) as [[[x' k] c']|e] eqn:Hx;
        simpl; [|discriminate].
      destruct (finalize_loop _ _ subs _) as [[tmp1 c'']|e] eqn:Hrest;
        simpl; [|discriminate].
      destruct (IHx _ _ _ _ _ Hx) as (Hp & Hd & _).
      apply finalize_inv in Hx as (_ & ? & ? & _ & Hpx & _).
      assert (oid x' = oid x) as Ho by (by injection Hpx).
      rewrite (section_in_same_oid x x') by (done || apply Hin; left).
      intros [= <- _]. simpl.
      destruct (IHsubs _ _ _ IH (fun y Hy => Hin y (list_elem_of_further _ _ _ Hy))
                  Hrest) as (Hp' & Hd' & Ho').
      rewrite !map_app, Hp, Hd, Hp', Hd', Ho, Ho'. done. }
  destruct (Hgen _ _ _ _ IH (fun x Hx => Hx) Hloop) as (Hp & Hd & Ho).
  rewrite (preorder_eq s'), (preorder_eq s), (preorder_depths_eq d s).
  simpl. rewrite Hsubs, Hp, Hd, Ho, Hpay, Hdepth. done.
Qed.
End RetainedTree.

(** ** Flattening and scoring *)

Section Flatten.
Context `{Collaborators}.

Lemma _flatten_sections_eq (s : ResultSection) (root : bool)
    (flattened : list FlatSection) :
  _flatten_sections s root flattened
  = match subsections s with
    | _ :: _ =>
        flatten_loop (subsections s)
          (if root then _append_section flattened s else flattened)
    | [] => _append_section flattened s
    end.
Proof.
  destruct s as [o f subs b c bf d t h ti].
  destruct subs as [|x subs]; [reflexivity|]. simpl.
  match goal with
  | |- _ = flatten_loop subs ?acc => generalize acc
  end.
  induction subs as [|y subs IH]; intros acc; simpl; [reflexivity|].
  by rewrite IH.
Qed.

(** [_flatten_sections] appends the records of the pre-order walk: of the
    whole tree when called on a root, of the subtrees of the children when
    called from the loop on a section that has children. *)
Lemma flatten_is_preorder (s : ResultSection) :
  forall (root : bool) (flattened : list FlatSection),
    _flatten_sections s root flattened
    = flattened
      ++ map section_record
           (if root then preorder s
            else match subsections s with
                 | [] => [s]
                 | _ :: _ => flat_map preorder (subsections s)
                 end).
Proof.
  induction s as [s IH] using ResultSection_tree_ind.
  intros root flattened. rewrite _flatten_sections_eq, (preorder_eq s).
  assert (forall subs acc,
            Forall (fun c => forall root flattened,
                      _flatten_sections c root flattened
                      = flattened
                        ++ map section_record
                             (if root then preorder c
                              else match subsections c with
                                   | [] => [c]
                                   | _ :: _ =>
                                       flat_map preorder (subsections c)
                                   end)) subs ->
            flatten_loop subs acc
            = acc ++ map section_record (flat_map preorder subs)) as Hloop.
  { clear. induction subs as [|x subs IHsubs]; intros acc IH; simpl.
    - by rewrite app_nil_r.
    - apply Forall_cons in IH as [IHx IH].
      rewrite (preorder_eq x), IHsubs by done.
      unfold _append_section. simpl. rewrite map_app.
      destruct (subsections x) as [|y ys] eqn:Hx.
      + simpl. by rewrite <- !app_assoc.
      + rewrite (IHx false). by rewrite <- !app_assoc. }
  destruct (subsections s) as [|x subs] eqn:Hs.
  - unfold _append_section. by destruct root.
  - rewrite Hloop by done. unfold _append_section.
    destruct root; simpl; [by rewrite <- app_assoc | done].
Qed.

Lemma add_scores_sum (flattened : list FlatSection) (start : Z) :
  add_scores flattened start = start + sumZ (map record_score flattened).
Proof.
  unfold add_scores, record_score. revert start.
  induction flattened as [|r l IH]; intros start; simpl; [lia|].
  rewrite IH. destruct (flat_heuristic r); lia.
Qed.

Lemma record_score_section (s : ResultSection) :
  record_score (section_record s) = heuristic_score s.
Proof. unfold record_score, heuristic_score. simpl. by destruct (heuristic s). Qed.
End Flatten.

(** A function of the payload takes the same values on two lists of
    sections with the same payloads. *)
Lemma map_through_payload {A : Type} (f : ResultSection -> A)
    (g : positive * string * option string * BODY_FORMAT
         * gmap string (list string) * option Heuristic -> A)
    (l l' : list ResultSection) :
  (forall s, f s = g (payload s)) ->
  map payload l' = map payload l ->
  map f l' = map f l.
Proof.
  intros Hfg Hl.
  rewrite (map_ext f (fun s => g (payload s))) by done.
  rewrite (map_ext f (fun s => g (payload s)) Hfg l).
  by rewrite <- !(map_map payload g), Hl.
Qed.

Lemma length_flat_map_preorder (l : list ResultSection) :
  length (flat_map preorder l) = list_sum (map tree_size l).
Proof.
  induction l as [|s l IH]; simpl; [done|].
  by rewrite length_app, length_preorder, IH.
Qed.

Section ResultFacts.
Context `{Collaborators}.

(** On trees that were never finalized the first loop of
    [Result.finalize] returns, marks nothing for deletion, and yields the
    finalized trees. *)
Lemma finalize_sections_fresh (l : list ResultSection) :
  forallb fresh l = true ->
  exists finalized,
    finalize_sections l = OK (finalized, [])
    /\ map payload (flat_map preorder finalized)
       = map payload (flat_map preorder l)
    /\ map depth (flat_map preorder finalized)
       = flat_map (preorder_depths 0) l.
Proof.
  induction l as [|s l IH]; simpl; intros Hfresh; [by eexists|].
  apply andb_prop in Hfresh as [Hs Hl].
  destruct (finalize_total s Hs 0 None) as [[[s' k] p'] Hfin].
  rewrite Hfin. simpl.
  destruct (IH Hl) as (finalized & -> & Hp & Hd). simpl.
  rewrite (finalize_top_keeps _ _ _ _ _ Hfin).
  destruct (finalize_keeps_tree _ _ _ _ _ _ Hfin) as (Hp' & Hd' & _).
  eexists. split; [reflexivity|]. simpl.
  by rewrite !map_app, Hp, Hd, Hp', Hd'.
Qed.

Lemma flatten_all (l : list ResultSection) (flattened : list FlatSection) :
  fold_left (fun acc section => _flatten_sections section true acc)
            l flattened
  = flattened ++ map section_record (flat_map preorder l).
Proof.
  revert flattened. induction l as [|s l IH]; intros acc; simpl.
  - by rewrite app_nil_r.
  - rewrite IH, (flatten_is_preorder s true), map_app.
    by rewrite <- app_assoc.
Qed.

(** C3: on a Result that was not finalized before and whose sections form
    trees (no section object held twice), [Result.finalize] returns; the
    records it returns are those of the sections in pre-order
    (a section, then each of its subsections with the subtree below it, in
    list order), one record for each node, with the title, the heuristic
    and the depth of the node; and the score is the sum of the heuristic
    scores of the nodes. *)
Theorem Result_finalize_preorder (self : Result) :
  _flattened_sections self = [] ->
  _score self = 0 ->
  forallb fresh (sections self) = true ->
  unshared (sections self) = true ->
  exists self' out,
    Result_finalize self = OK (self', out)
    /\ dict_sections out
       = map section_record (flat_map preorder (sections self'))
    /\ map flat_title_text (dict_sections out)
       = map title_text (flat_map preorder (sections self))
    /\ map flat_heuristic (dict_sections out)
       = map (fun s => get_heuristic_primitives (heuristic s))
             (flat_map preorder (sections self))
    /\ map flat_depth (dict_sections out)
       = flat_map (preorder_depths 0) (sections self)
    /\ length (dict_sections out)
       = list_sum (map tree_size (sections self))
    /\ dict_score out
       = sumZ (map heuristic_score (flat_map preorder (sections self))).
Proof.
  intros Hflat Hscore Hfresh _. unfold Result_finalize.
  destruct (finalize_sections_fresh _ Hfresh) as (finalized & -> & Hp & Hd).
  simpl. rewrite Hflat, Hscore, flatten_all. simpl.
  eexists _, _. split; [reflexivity|]. simpl.
  rewrite add_scores_sum, !map_map.
  repeat split.
  - by apply (map_through_payload _ (fun p => p.1.1.1.1.2)).
  - by apply (map_through_payload _
                (fun p => get_heuristic_primitives p.2)).
  - exact Hd.
  - rewrite length_map, <- length_flat_map_preorder.
    by rewrite <- (length_map payload), Hp, length_map.
  - rewrite (map_ext _ heuristic_score) by apply record_score_section.
    rewrite (map_through_payload heuristic_score
               (fun p => match p.2 with Some h => score h | None => 0 end)
               _ _ (fun s => eq_refl) Hp).
    lia.
Qed.
End ResultFacts.

Lemma Result_finalize_preorder_witness :
  exists self' out,
    Result_finalize (H := Demo.service) (Result_init (Some [Demo.root]))
    = OK (self', out)
    /\ map flat_title_text (dict_sections out)
       = ["root"; "child1"; "child2"; "grandchild"]
    /\ map flat_depth (dict_sections out) = [0; 1; 1; 2]
    /\ length (dict_sections out) = 4%nat
    /\ dict_score out = 18.
Proof.
  destruct (Result_finalize_preorder (H := Demo.service)
              (Result_init (Some [Demo.root])) eq_refl eq_refl eq_refl eq_refl)
    as (self' & out & Hfin & _ & Htitles & _ & Hdepths & Hlen & Hscore).
  exists self', out. split; [exact Hfin|].
  rewrite Htitles, Hdepths, Hlen, Hscore. repeat split.
Defined.

(** ** Where the code departs from the documented behaviour *)

(** C1 does not hold of the code.  In [ResultSection.finalize] the answer of
    [subsection.finalize] is thrown away and the test that decides whether
    the subsection is kept, [subsection in self.subsections], looks the
    subsection up in the very list it was taken from.  Here the root has two
    children and merging the label of the second into the root raises: the
    second child answers "do not keep", and yet the finalized root holds
    both children, the flat list has three records and the score, 18,
    counts the 3 of the child that should have gone. *)
Theorem child_that_fails_merging_is_kept :
  exists bad' root' self' out,
    finalize (H := Demo.service) Demo.bad_child 1 (Some "R")
    = OK (bad', false, Some "R")
    /\ Result_finalize (H := Demo.service)
         (Result_init (Some [Demo.mixed_root]))
       = OK (self', out)
    /\ sections self' = [root']
    /\ map title_text (subsections root') = ["good"; "bad"]
    /\ map flat_title_text (dict_sections out) = ["root"; "good"; "bad"]
    /\ heuristic_score Demo.bad_child = 3
    /\ dict_score out = 18.
Proof. do 4 eexists. repeat split. Qed.

(** Whatever the operating system: when nothing lies at the destination
    and moving [name] raises, [add_extracted] raises and the file system is
    the one the folder check left, whatever lies at [path]. *)
Lemma add_extracted_needs_name `{OS} (self : Task)
    (working_directory path name description : string)
    (classification : option string) (w w1 : filesystem) :
  _working_directory self = Some working_directory ->
  ensure_folder (path_dirname path) w = (w1, OK tt) ->
  path_exists w1 (path_join working_directory name) = false ->
  move w1 name (path_join working_directory name) = None ->
  add_extracted self path name description classification w
  = (w1, Raise OSError).
Proof.
  intros Hwd Hfolder Hfree Hmove. unfold add_extracted. rewrite Hwd.
  unfold io_bind at 1. rewrite Hfolder.
  unfold io_bind at 1, move_unless_exists. by rewrite Hfree, Hmove.
Qed.

(** C2 does not hold of the code.  Both methods hand [name], not [path], to
    [shutil.move] as the source.  A service running in [/srv] that wrote
    [/in/a.bin] and registers it under the name [a.bin]: there is no
    [a.bin] in [/srv], the move raises, the file stays where it was and no
    record is appended.  With an unrelated [/srv/a.bin] on the disk, that
    file is the one moved into the working directory, while the digest of
    the record is the one of [/in/a.bin], which stays in place. *)
Theorem add_extracted_moves_name :
  add_extracted (H := Demo.posix) Demo.task "/in/a.bin" "a.bin" "dropped" None
    Demo.disk
  = (Demo.disk, Raise OSError)
  /\ add_supplementary (H := Demo.posix) Demo.task "/in/a.bin" "a.bin"
       "dropped" None Demo.disk
     = (Demo.disk, Raise OSError)
  /\ exists w' task',
       add_extracted (H := Demo.posix) Demo.task "/in/a.bin" "a.bin"
         "dropped" None Demo.disk_with_namesake
       = (w', OK task')
       /\ Demo.files w' !! "/wd/a.bin" = Some "other"
       /\ Demo.files w' !! "/srv/a.bin" = None
       /\ Demo.files w' !! "/in/a.bin" = Some "payload"
       /\ extracted task'
          = [{| file_name := "a.bin";
                file_sha256 := Demo.digest "payload";
                file_description := "dropped";
                file_classification := None |}].
Proof.
  split; [by vm_compute|]. split; [by vm_compute|].
  do 2 eexists. split; [vm_compute; reflexivity|]. by vm_compute.
Qed.

(** * Further properties *)

(** ** Heuristics after construction *)

Lemma bump_bump k n m (d : gmap string Z) :
  bump k m (bump k n d) = bump k (n + m) d.
Proof.
  unfold bump. rewrite lookup_insert_eq, insert_insert_eq. simpl.
  f_equal. lia.
Qed.

Lemma bump_comm a b n m (d : gmap string Z) :
  bump b m (bump a n d) = bump a n (bump b m d).
Proof.
  destruct (decide (a = b)) as [->|Hne].
  - rewrite !bump_bump. f_equal. lia.
  - unfold bump. rewrite !lookup_insert_ne by done.
    by apply insert_insert_ne.
Qed.

Section HeuristicCalls.
Context `{Collaborators}.

(** The attack ids of a new heuristic: the supplied ones, or the defaults of
    the manifest entry when none is supplied, without those the catalogue
    does not know. *)
Lemma Heuristic_init_attack_ids heur_id d attack_id signature ids sigs freq :
  HEUR_LIST !! heur_id = Some d ->
  exists h,
    Heuristic_init heur_id attack_id signature ids sigs freq = OK h
    /\ definition h = d
    /\ attack_ids h
       = filter (fun a => a ∈ attack_map)
           (match supplied_attack_ids attack_id ids with
            | [] => def_attack_id d
            | _ :: _ => supplied_attack_ids attack_id ids
            end).
Proof.
  intros Hd. unfold Heuristic_init. rewrite Hd.
  fold (merged_signatures signature sigs).
  assert (match attack_id with
          | Some a => if truthy attack_id then default [] ids ++ [a]
                      else default [] ids
          | None => default [] ids
          end = supplied_attack_ids attack_id ids) as ->.
  { unfold supplied_attack_ids.
    destruct attack_id as [a|]; [destruct (truthy (Some a))|];
      by rewrite ?app_nil_r. }
  destruct (decide (merged_signatures signature sigs = ∅));
    eexists; (split; [reflexivity|]); simpl; (split; [done|]); f_equal.
  all: destruct (supplied_attack_ids attack_id ids);
    by destruct (def_attack_id d).
Qed.

Lemma call_heuristic_definition (h : Heuristic) (c : heuristic_call) :
  definition (call_heuristic h c) = definition h.
Proof.
  destruct c; simpl; [|done..].
  unfold add_attack_id. by repeat case_decide.
Qed.

Lemma add_attack_id_valid (h : Heuristic) (a : string) :
  Forall (fun x => x ∈ attack_map) (attack_ids h) ->
  Forall (fun x => x ∈ attack_map) (attack_ids (add_attack_id h a)).
Proof.
  intros Hh. unfold add_attack_id. repeat case_decide; simpl; try done.
  apply Forall_app. split; [done|]. by apply Forall_singleton.
Qed.

Lemma call_heuristic_recomputed (h : Heuristic) (c : heuristic_call) :
  score h = recomputed_score h ->
  score (call_heuristic h c) = recomputed_score (call_heuristic h c).
Proof.
  unfold recomputed_score. intros Hh. destruct c as [a|s n|n]; simpl.
  - unfold add_attack_id. by repeat case_decide.
  - rewrite add_signature_score_value, signatures_score_bump. lia.
  - lia.
Qed.

(** X1: every attack id of a heuristic is in the catalogue, from the
    constructor on and through any sequence of [add_attack_id],
    [add_signature_id] and [increment_frequency] calls. *)
Theorem attack_ids_stay_valid (heur_id : Z) (attack_id signature : option string)
    (ids : option (list string)) (sigs : option (gmap string Z)) (freq : Z)
    (h : Heuristic) (calls : list heuristic_call) :
  Heuristic_init heur_id attack_id signature ids sigs freq = OK h ->
  Forall (fun a => a ∈ attack_map)
         (attack_ids (fold_left call_heuristic calls h)).
Proof.
  intros Hinit.
  assert (Forall (fun a => a ∈ attack_map) (attack_ids h)) as Hh.
  { destruct (HEUR_LIST !! heur_id) as [d|] eqn:Hd.
    - destruct (Heuristic_init_attack_ids heur_id d attack_id signature ids
                  sigs freq Hd) as (h' & Hh' & _ & Hids).
      rewrite Hinit in Hh'. injection Hh' as <-. rewrite Hids.
      apply Forall_forall. intros a Ha. by apply list_elem_of_filter in Ha as [? _].
    - by rewrite Heuristic_init_unknown in Hinit. }
  clear Hinit. revert h Hh.
  induction calls as [|c calls IH]; intros h Hh; simpl; [done|].
  apply IH. destruct c; simpl; [by apply add_attack_id_valid | done..].
Qed.

(** X2: the score of a heuristic is at every moment the score its counters
    give: the sum over its signatures of value times count, plus the base
    score times the frequency counter; this holds from the constructor on
    and through any sequence of calls. *)
Theorem score_follows_counters (heur_id : Z) (attack_id signature : option string)
    (ids : option (list string)) (sigs : option (gmap string Z)) (freq : Z)
    (h : Heuristic) (calls : list heuristic_call) :
  Heuristic_init heur_id attack_id signature ids sigs freq = OK h ->
  score (fold_left call_heuristic calls h)
  = recomputed_score (fold_left call_heuristic calls h).
Proof.
  intros Hinit.
  assert (score h = recomputed_score h) as Hh.
  { destruct (HEUR_LIST !! heur_id) as [d|] eqn:Hd.
    - destruct (Heuristic_init_known heur_id d attack_id signature ids
                  sigs freq Hd) as (h' & Hh' & Hdef & _ & Hempty & Hfull).
      rewrite Hinit in Hh'. injection Hh' as <-.
      unfold recomputed_score. rewrite Hdef.
      destruct (decide (signatures h = ∅)) as [He|Hne].
      + destruct (Hempty He) as [-> ->].
        rewrite He, signatures_score_empty. lia.
      + destruct (Hfull Hne) as [-> ->]. lia.
    - by rewrite Heuristic_init_unknown in Hinit. }
  clear Hinit. revert h Hh.
  induction calls as [|c calls IH]; intros h Hh; simpl; [done|].
  apply IH. by apply call_heuristic_recomputed.
Qed.


(** X4: the defaults of the manifest entry are used only when the caller
    supplies no attack id at all; when the caller supplies some and the
    catalogue knows none of them, the heuristic has no attack id. *)
Theorem default_attack_ids_only_without_supplied (heur_id : Z)
    (d : HeuristicDefinition) (attack_id signature : option string)
    (ids : option (list string)) (sigs : option (gmap string Z)) (freq : Z) :
  HEUR_LIST !! heur_id = Some d ->
  exists h,
    Heuristic_init heur_id attack_id signature ids sigs freq = OK h
    /\ (supplied_attack_ids attack_id ids = [] ->
        attack_ids h = filter (fun a => a ∈ attack_map) (def_attack_id d))
    /\ (supplied_attack_ids attack_id ids ≠ [] ->
        attack_ids h
        = filter (fun a => a ∈ attack_map) (supplied_attack_ids attack_id ids))
    /\ (supplied_attack_ids attack_id ids ≠ [] ->
        Forall (fun a => a ∉ attack_map) (supplied_attack_ids attack_id ids) ->
        attack_ids h = []).
Proof.
  intros Hd.
  destruct (Heuristic_init_attack_ids heur_id d attack_id signature ids sigs
              freq Hd) as (h & Hh & _ & Hids).
  exists h. split; [done|].
  destruct (supplied_attack_ids attack_id ids) as [|x l] eqn:Hs.
  - repeat split; done.
  - repeat split; try done.
    intros _ Hall. rewrite Hids. clear Hids Hs.
    induction Hall as [|y l' Hy _ IH]; [done|].
    by rewrite filter_cons_False.
Qed.
End HeuristicCalls.

(** X5: [add_signature_id] adds up: two calls for one signature are one call
    with the sum of the frequencies, and calls can be swapped. *)
Theorem add_signature_id_adds_up (h : Heuristic) (a b : string) (n m : Z) :
  add_signature_id (add_signature_id h a n) a m = add_signature_id h a (n + m)
  /\ add_signature_id (add_signature_id h a n) b m
     = add_signature_id (add_signature_id h b m) a n
  /\ signatures (add_signature_id h a n) !! a
     = Some (default 0 (signatures h !! a) + n).
Proof.
  unfold add_signature_id. simpl. repeat split.
  - rewrite bump_bump, !add_signature_score_value. f_equal. lia.
  - rewrite (bump_comm a b), !add_signature_score_value. f_equal. lia.
  - unfold bump. by rewrite lookup_insert_eq.
Qed.

Lemma attack_ids_stay_valid_witness :
  exists h,
    Heuristic_init (H := Demo.service) 3 (Some "bogus") None None None 1 = OK h
    /\ Forall (fun a => a ∈ @attack_map Demo.service)
         (attack_ids
            (fold_left (call_heuristic (H := Demo.service))
               [AddAttackId "T1002"; AddAttackId "unknown";
                AddSignatureId "sig" 2] h)).
Proof.
  eexists. split; [reflexivity|].
  apply (attack_ids_stay_valid (H := Demo.service) 3 (Some "bogus") None None
           None 1).
  reflexivity.
Defined.

Lemma score_follows_counters_witness :
  exists h,
    Heuristic_init (H := Demo.service) 2 None (Some "sig_a") None None 1 = OK h
    /\ score (fold_left (call_heuristic (H := Demo.service))
                [IncrementFrequency 3; AddSignatureId "sig_b" 2] h)
       = recomputed_score
           (fold_left (call_heuristic (H := Demo.service))
              [IncrementFrequency 3; AddSignatureId "sig_b" 2] h).
Proof.
  eexists. split; [reflexivity|].
  apply (score_follows_counters (H := Demo.service) 2 None (Some "sig_a") None
           None 1).
  reflexivity.
Defined.


Lemma default_attack_ids_only_without_supplied_witness :
  (exists h,
     Heuristic_init (H := Demo.service) 3 None None None None 1 = OK h
     /\ attack_ids h = ["T1001"])
  /\ (exists h,
        Heuristic_init (H := Demo.service) 3 (Some "bogus") None None None 1
        = OK h
        /\ attack_ids h = []).
Proof.
  split.
  - destruct (default_attack_ids_only_without_supplied (H := Demo.service) 3
                (mkDefinition 3 ["T1001"] ∅) None None None None 1 eq_refl)
      as (h & Hh & Hdefault & _).
    exists h. split; [exact Hh|]. rewrite Hdefault by reflexivity.
    by vm_compute.
  - destruct (default_attack_ids_only_without_supplied (H := Demo.service) 3
                (mkDefinition 3 ["T1001"] ∅) (Some "bogus") None None None 1
                eq_refl)
      as (h & Hh & _ & _ & Hnone).
    exists h. split; [exact Hh|]. apply Hnone; [discriminate|].
    apply Forall_singleton. by vm_compute.
Defined.

(** ** Tags and body lines of a section *)

Section TagFacts.
Context `{Collaborators}.

(** X6: [add_tag] fails only on bytes that cannot be decoded, with
    UnicodeDecodeError; a text always goes through, and bytes that decode
    are the same tag as the text they decode to. *)
Theorem add_tag_raises_only_on_undecodable_bytes (s : ResultSection)
    (tag_type : string) :
  (forall x, exists s1, add_tag s tag_type (Str x) = OK s1)
  /\ (forall b x, decode b = Some x ->
        add_tag s tag_type (Bytes b) = add_tag s tag_type (Str x))
  /\ (forall b, decode b = None ->
        add_tag s tag_type (Bytes b) = Raise UnicodeDecodeError)
  /\ (forall value e, add_tag s tag_type value = Raise e ->
        e = UnicodeDecodeError
        /\ exists b, value = Bytes b /\ decode b = None).
Proof.
  repeat split.
  - intros x. unfold add_tag. simpl. by eexists.
  - intros b x Hb. unfold add_tag. by rewrite Hb.
  - intros b Hb. unfold add_tag. by rewrite Hb.
  - destruct value as [x|b]; unfold add_tag in *; simpl in *; [done|].
    destruct (decode b); simpl in *; congruence.
  - destruct value as [x|b]; unfold add_tag in *; simpl in *; [done|].
    destruct (decode b) eqn:Hb; simpl in *; [done|]. by exists b.
Qed.

(** X7: a successful [add_tag] removes and reorders nothing: every list is
    a prefix of what it becomes; the value is in the list of its type
    afterwards; and when no list held a value twice before, none does
    afterwards. *)
Theorem add_tag_keeps_lists_duplicate_free (s s1 : ResultSection)
    (tag_type : string) (value : tag_value) :
  add_tag s tag_type value = OK s1 ->
  (forall t l, tags s !! t = Some l ->
     exists l', tags s1 !! t = Some l' /\ l `prefix_of` l')
  /\ (exists x l, tag_text value = Some x
                  /\ tags s1 !! tag_type = Some l /\ x ∈ l)
  /\ ((forall t l, tags s !! t = Some l -> NoDup l) ->
      forall t l, tags s1 !! t = Some l -> NoDup l).
Proof.
  intros Hadd.
  destruct (add_tag_tags s s1 tag_type value Hadd) as (x & Hx & Htags & _).
  simpl in Htags.
  set (old := default [] (tags s !! tag_type)) in *.
  repeat split.
  - intros t l Hl. rewrite Htags.
    destruct (decide (t = tag_type)) as [->|Hne].
    + rewrite lookup_insert_eq. eexists. split; [done|].
      assert (old = l) as -> by (unfold old; by rewrite Hl).
      case_decide; [done | by apply prefix_app_r].
    + rewrite lookup_insert_ne by done. by exists l.
  - exists x. eexists. split; [done|]. rewrite Htags, lookup_insert_eq.
    split; [done|]. case_decide; [done|].
    apply elem_of_app. right. by apply list_elem_of_singleton.
  - intros Hnd t l. rewrite Htags.
    destruct (decide (t = tag_type)) as [->|Hne].
    + rewrite lookup_insert_eq. intros [= <-].
      assert (NoDup old) as Hold.
      { unfold old. destruct (tags s !! tag_type) eqn:E; simpl;
          [by eapply Hnd | apply NoDup_nil_2]. }
      case_decide; [done|].
      apply NoDup_app. repeat split; [done| |apply NoDup_singleton].
      by intros y Hy ->%list_elem_of_singleton.
    + rewrite lookup_insert_ne by done. apply Hnd.
Qed.
End TagFacts.

Lemma add_tag_raises_only_on_undecodable_bytes_witness :
  add_tag (H := Demo.service) (Demo.leaf 1 "t" "U" None) "ip"
    (Bytes [Byte.x31; Byte.x2e; Byte.x32])
  = add_tag (H := Demo.service) (Demo.leaf 1 "t" "U" None) "ip" (Str "1.2")
  /\ add_tag (H := Demo.service) (Demo.leaf 1 "t" "U" None) "ip"
       (Bytes [Byte.xff])
     = Raise UnicodeDecodeError.
Proof.
  destruct (add_tag_raises_only_on_undecodable_bytes (H := Demo.service)
              (Demo.leaf 1 "t" "U" None) "ip") as (_ & Hsame & Hraise & _).
  split; [apply Hsame | apply Hraise]; reflexivity.
Defined.

Lemma add_tag_keeps_lists_duplicate_free_witness :
  exists s1,
    add_tag (H := Demo.service) (Demo.leaf 1 "t" "U" None) "ip" (Str "1.2.3.4")
    = OK s1
    /\ forall t l, tags s1 !! t = Some l -> NoDup l.
Proof.
  eexists. split; [reflexivity|].
  destruct (add_tag_keeps_lists_duplicate_free (H := Demo.service)
              (Demo.leaf 1 "t" "U" None) _ "ip" (Str "1.2.3.4") eq_refl)
    as (_ & _ & Hnd).
  apply Hnd. intros t l Hl. vm_compute in Hl. discriminate.
Defined.

Lemma string_app_assoc (a b c : string) : (a +:+ b) +:+ c = a +:+ (b +:+ c).
Proof.
  induction a as [|x a IH]; [reflexivity|].
  change (String x ((a +:+ b) +:+ c) = String x (a +:+ (b +:+ c))).
  by rewrite IH.
Qed.

Lemma string_app_nonempty (a b : string) : a ≠ "" -> a +:+ b ≠ "".
Proof. destruct a; [done|]. intros _. discriminate. Qed.

Lemma concat_cons (sep x y : string) (l : list string) :
  String.concat sep (x :: y :: l) = x +:+ sep +:+ String.concat sep (y :: l).
Proof. reflexivity. Qed.

(** Gluing the first two lines by hand gives the same text. *)
Lemma concat_glue (sep x y : string) (l : list string) :
  String.concat sep ((x +:+ (sep +:+ y)) :: l) = String.concat sep (x :: y :: l).
Proof.
  destruct l as [|z l]; [reflexivity|].
  rewrite !concat_cons. by rewrite !string_app_assoc.
Qed.

Lemma set_body_field_id (s : ResultSection) : set_body_field s (body s) = s.
Proof. by destruct s. Qed.

Lemma truthy_body_Some (b : string) : truthy (Some b) = true <-> b ≠ "".
Proof.
  simpl. destruct (String.eqb_spec b ""); split; try done;
    intros Hb; by destruct Hb.
Qed.

Section LineFacts.
Variable safe_str : string -> string.

Lemma add_line_on_text (s : ResultSection) (b : string) (t : line_text) :
  body s = Some b -> b ≠ "" ->
  add_line safe_str s t
  = set_body_field s (Some (b +:+ (newline +:+ line_string safe_str t))).
Proof.
  intros Hb Hne. unfold add_line. rewrite Hb.
  by rewrite (proj2 (truthy_body_Some b) Hne).
Qed.

Lemma add_line_on_nothing (s : ResultSection) (t : line_text) :
  truthy (body s) = false ->
  add_line safe_str s t = set_body_field s (Some (line_string safe_str t)).
Proof.
  intros Hb. unfold add_line. destruct (body s); [by rewrite Hb | done].
Qed.

Lemma add_line_fold_on_text (texts : list line_text) :
  forall (s : ResultSection) (b : string),
    body s = Some b -> b ≠ "" ->
    fold_left (add_line safe_str) texts s
    = set_body_field s
        (Some (String.concat newline (b :: map (line_string safe_str) texts))).
Proof.
  induction texts as [|t texts IH]; intros s b Hb Hne; simpl.
  - by rewrite <- Hb, set_body_field_id.
  - rewrite (add_line_on_text s b t Hb Hne).
    rewrite (IH (set_body_field s
                   (Some (b +:+ (newline +:+ line_string safe_str t))))
                (b +:+ (newline +:+ line_string safe_str t)) eq_refl)
      by by apply string_app_nonempty.
    rewrite concat_glue. by destruct s.
Qed.

(** The body a run of [add_line] calls leaves. *)
Lemma add_line_fold (s : ResultSection) (texts : list line_text) :
  texts ≠ [] ->
  fold_left (add_line safe_str) texts s
  = set_body_field s
      (Some (String.concat newline
               (match body s with
                | Some b =>
                    if truthy (body s)
                    then b :: map (line_string safe_str) texts
                    else skip_empty (map (line_string safe_str) texts)
                | None => skip_empty (map (line_string safe_str) texts)
                end))).
Proof.
  intros Hne.
  destruct (truthy (body s)) eqn:Htruthy.
  { destruct (body s) as [b|] eqn:Hb; [|done].
    apply add_line_fold_on_text; [done|]. by apply truthy_body_Some. }
  assert (fold_left (add_line safe_str) texts s
          = set_body_field s
              (Some (String.concat newline
                       (skip_empty (map (line_string safe_str) texts)))))
    as Hgoal.
  { clear -Hne Htruthy. revert s Htruthy.
    induction texts as [|t texts IH]; intros s Htruthy; [done|]. simpl.
    rewrite (add_line_on_nothing s t Htruthy).
    destruct (String.eqb_spec (line_string safe_str t) "") as [He|Hfull].
    - destruct texts as [|t' texts]; [by rewrite He|].
      rewrite IH; [by destruct s | done | simpl; by rewrite He].
    - rewrite (add_line_fold_on_text texts
                 (set_body_field s (Some (line_string safe_str t)))
                 (line_string safe_str t) eq_refl Hfull).
      simpl. destruct (String.eqb_spec (line_string safe_str t) "");
        [done | by destruct s]. }
  rewrite Hgoal. by destruct (body s).
Qed.

(** X8: a run of [add_line] calls writes the texts one per line.  On a
    section whose body holds text the lines follow the body; on a section
    whose body is absent or empty the leading texts that are empty leave no
    line behind, so that the body starts with the first text that is not
    empty.  Nothing but the body changes. *)
Theorem add_line_joins_lines (s : ResultSection) (texts : list line_text) :
  texts ≠ [] ->
  fold_left (add_line safe_str) texts s
  = set_body_field s
      (Some (String.concat newline
               (match body s with
                | Some b =>
                    if truthy (body s)
                    then b :: map (line_string safe_str) texts
                    else skip_empty (map (line_string safe_str) texts)
                | None => skip_empty (map (line_string safe_str) texts)
                end))).
Proof. intros Hne. by apply add_line_fold. Qed.
End LineFacts.

Lemma add_line_joins_lines_witness :
  body (fold_left (add_line (fun x => x))
          [Parts ["a"; "b"]; Line "c"]
          (Demo.leaf 1 "t" "U" None))
  = Some ("ab" +:+ newline +:+ "c").
Proof.
  rewrite (add_line_joins_lines (fun x => x) (Demo.leaf 1 "t" "U" None)
             [Parts ["a"; "b"]; Line "c"]) by discriminate.
  reflexivity.
Defined.

Lemma line_strings_of_lines (lines : list string) :
  map (line_string (fun x => x)) (map Line lines) = lines.
Proof. induction lines as [|x l IH]; simpl; [done | by rewrite IH]. Qed.

Lemma skip_empty_full (x : string) (l : list string) :
  x ≠ "" -> skip_empty (x :: l) = x :: l.
Proof. intros Hx. simpl. by destruct (String.eqb_spec x ""). Qed.

(** X9: [add_lines] writes what one [add_line] per line writes (for lines
    that [safe_str] leaves alone) when the body holds text and the list is
    not empty, and when there is no body yet and the first line is not
    empty.  On a body that is the empty string the two differ: [add_lines]
    tests for [None], not for emptiness, and starts the body with a line
    feed. *)
Theorem add_lines_agrees_with_add_line (s : ResultSection) :
  (forall lines,
     truthy (body s) = true -> lines ≠ [] ->
     add_lines s lines
     = fold_left (add_line (fun x => x)) (map Line lines) s)
  /\ (forall x l,
        body s = None -> x ≠ "" ->
        add_lines s (x :: l)
        = fold_left (add_line (fun x => x)) (map Line (x :: l)) s)
  /\ (forall x l,
        body s = Some "" -> x ≠ "" ->
        body (add_lines s (x :: l))
        = Some (newline +:+ String.concat newline (x :: l))
        /\ body (fold_left (add_line (fun x => x)) (map Line (x :: l)) s)
           = Some (String.concat newline (x :: l))).
Proof.
  split; [|split].
  - intros lines Htruthy Hne.
    rewrite add_line_fold by by destruct lines.
    rewrite Htruthy, line_strings_of_lines. unfold add_lines.
    destruct (body s) as [b|]; [|done].
    by destruct lines.
  - intros x l Hb Hx.
    rewrite add_line_fold by done.
    rewrite Hb, line_strings_of_lines, skip_empty_full by done.
    unfold add_lines. by rewrite Hb.
  - intros x l Hb Hx. split.
    + unfold add_lines. by rewrite Hb.
    + rewrite add_line_fold by done.
      rewrite Hb, line_strings_of_lines. simpl truthy. cbv iota.
      by rewrite skip_empty_full.
Qed.

Lemma add_lines_agrees_with_add_line_witness :
  add_lines (set_body (Demo.leaf 1 "t" "U" None) "head" TEXT) ["a"; "b"]
  = fold_left (add_line (fun x => x)) (map Line ["a"; "b"])
      (set_body (Demo.leaf 1 "t" "U" None) "head" TEXT)
  /\ body (add_lines (set_body (Demo.leaf 1 "t" "U" None) "" TEXT) ["a"])
     = Some (newline +:+ "a").
Proof.
  destruct (add_lines_agrees_with_add_line
              (set_body (Demo.leaf 1 "t" "U" None) "head" TEXT))
    as (Hsame & _).
  destruct (add_lines_agrees_with_add_line
              (set_body (Demo.leaf 1 "t" "U" None) "" TEXT))
    as (_ & _ & Hdiffer).
  split.
  - apply Hsame; [reflexivity | discriminate].
  - exact (proj1 (Hdiffer "a" [] eq_refl ltac:(discriminate))).
Defined.

(** ** Finalizing, beyond the first call *)


Lemma fresh_eq (s : ResultSection) :
  fresh s = negb (_finalized s) && forallb fresh (subsections s).
Proof. by destruct s. Qed.

Section FinalizeMore.
Context `{Collaborators}.

(** The subsections a finished loop returns are the finalized subsections,
    one for one. *)
Lemma finalize_loop_children (all_subs : list ResultSection) (d : Z) :
  forall (subs : list ResultSection) (cls : string) tmp cls',
    (forall x, x ∈ subs -> x ∈ all_subs) ->
    finalize_loop all_subs d subs cls = OK (tmp, cls') ->
    Forall2 (fun c c' => exists pc k p',
               finalize c (d + 1) (Some pc) = OK (c', k, p')) subs tmp.
Proof.
  induction subs as [|x subs IH]; intros cls tmp cls' Hin; simpl.
  - intros [= <- _]. constructor.
  - destruct (finalize x (d + 1) (Some cls)) as [[[x' k] c']|e] eqn:Hx;
      simpl; [|discriminate].
    destruct (finalize_loop all_subs d subs (default cls c'))
      as [[tmp1 c'']|e] eqn:Hrest; simpl; [|discriminate].
    pose proof Hx as (_ & ? & ? & _ & Hpx & _)%finalize_inv.
    assert (oid x' = oid x) as Ho by (by injection Hpx).
    rewrite (section_in_same_oid x x') by (done || apply Hin; left).
    intros [= <- _]. constructor; [by eauto|].
    eapply IH; [|done]. intros y Hy. apply Hin. by right.
Qed.

Lemma finalize_raises_when_stale (s : ResultSection) :
  fresh s = false ->
  forall d parent, finalize s d parent = Raise ResultAggregationException.
Proof.
  induction s as [s IH] using ResultSection_tree_ind.
  intros Hstale d parent. rewrite finalize_eq. rewrite fresh_eq in Hstale.
  destruct (_finalized s); [done|]. simpl in Hstale.
  assert (forall all_subs subs cls,
            Forall (fun c => fresh c = false ->
                      forall d parent,
                        finalize c d parent
                        = Raise ResultAggregationException) subs ->
            forallb fresh subs = false ->
            finalize_loop all_subs d subs cls
            = Raise ResultAggregationException) as Hloop.
  { clear. intros all_subs subs.
    induction subs as [|x subs IHsubs]; intros cls IH Hstale; [done|].
    apply Forall_cons in IH as [IHx IH]. simpl in *.
    destruct (fresh x) eqn:Hx.
    - destruct (finalize_total x Hx (d + 1) (Some cls)) as [[[x' k] c'] ->].
      simpl. by rewrite IHsubs. 
    - by rewrite IHx. }
  by rewrite Hloop.
Qed.

(** X10: a section finalized before, the section itself or one below it,
    makes [finalize] fail with ResultAggregationException.  On a tree in
    which no section object is held twice that is the only failure: when
    nothing in the tree was finalized before, [finalize] returns, whatever
    the classification engine answers. *)
Theorem finalize_raises_iff_stale (s : ResultSection) (d : Z)
    (parent : option string) :
  (fresh s = false ->
   finalize s d parent = Raise ResultAggregationException)
  /\ (unshared [s] = true ->
      (fresh s = true -> exists r, finalize s d parent = OK r)
      /\ (forall e, finalize s d parent = Raise e ->
          e = ResultAggregationException /\ fresh s = false)).
Proof.
  split; [intros Hs; by apply finalize_raises_when_stale|].
  intros _. split; [intros Hs; by apply finalize_total|].
  intros e He. destruct (fresh s) eqn:Hs.
  - destruct (finalize_total s Hs d parent) as [r Hr]. congruence.
  - rewrite finalize_raises_when_stale in He by done. by injection He as <-.
Qed.

Lemma finalize_marks_nodes (s : ResultSection) :
  forall d parent s' keep_me parent',
    finalize s d parent = OK (s', keep_me, parent') ->
    Forall (fun n => _finalized n = true) (preorder s').
Proof.
  induction s as [s IH] using ResultSection_tree_ind.
  intros d parent s' keep_me parent' Hfin.
  pose proof Hfin as (_ & tmp & cls & Hloop & _ & Hf & Hsubs & _)%finalize_inv.
  rewrite preorder_eq, Hsubs. constructor; [done|].
  apply finalize_loop_children in Hloop; [|done].
  clear -IH Hloop.
  induction Hloop as [|c c' subs tmp (pc & k & p' & Hc) _ IHl]; simpl; [done|].
  apply Forall_cons in IH as [IHc IH].
  apply Forall_app. split; [by eapply IHc | by apply IHl].
Qed.

(** X11: after [finalize] every section of the tree is marked: none of
    them, at any level, can be finalized again; each one sits at the depth
    of its place, counted from the depth given to the call; and title,
    body, tags and heuristic are as they were. *)
Theorem finalize_marks_whole_tree (s s' : ResultSection) (d : Z)
    (parent parent' : option string) (keep_me : bool) :
  finalize s d parent = OK (s', keep_me, parent') ->
  (forall n d' parent'',
     n ∈ preorder s' ->
     finalize n d' parent'' = Raise ResultAggregationException)
  /\ map depth (preorder s') = preorder_depths d s
  /\ map payload (preorder s') = map payload (preorder s).
Proof.
  intros Hfin.
  destruct (finalize_keeps_tree s d parent s' keep_me parent' Hfin)
    as (Hp & Hd & _).
  repeat split; try done.
  intros n d' parent'' Hn.
  pose proof (finalize_marks_nodes s d parent s' keep_me parent' Hfin) as Hall.
  rewrite Forall_forall in Hall. specialize (Hall n Hn).
  rewrite finalize_eq. by rewrite Hall.
Qed.

(** The answer of [finalize], by the parent and the outcome of the merge. *)
Lemma finalize_answer_cases (s s' : ResultSection) (d : Z)
    (parent parent' : option string) (keep_me : bool) :
  finalize s d parent = OK (s', keep_me, parent') ->
  match parent with
  | None => keep_me = true /\ parent' = None
  | Some pc =>
      match max_classification (classification s') pc with
      | Some m => keep_me = true /\ parent' = Some m
      | None => keep_me = false /\ parent' = Some pc
      end
  end.
Proof.
  rewrite finalize_eq. destruct (_finalized s); [discriminate|].
  destruct (finalize_loop _ _ _ _) as [[tmp cls]|e]; simpl; [|discriminate].
  destruct parent as [pc|].
  - destruct (max_classification cls pc) as [m|] eqn:Hm;
      intros [= <- <- <-]; simpl; by rewrite Hm.
  - by intros [= <- <- <-].
Qed.

(** X12: what [finalize] answers to a parent section.  The label merged
    into the parent is the label of the section after its own subsections
    were merged into it; when the merge fails the answer is "do not keep"
    and the label of the parent stays as it was; when it succeeds the
    answer is "keep" and the parent takes the merged label.  Without a
    parent section the answer is always "keep". *)
Theorem finalize_answer (s s' : ResultSection) (d : Z)
    (parent parent' : option string) (keep_me : bool) :
  finalize s d parent = OK (s', keep_me, parent') ->
  match parent with
  | None => keep_me = true /\ parent' = None
  | Some pc =>
      match max_classification (classification s') pc with
      | Some m => keep_me = true /\ parent' = Some m
      | None => keep_me = false /\ parent' = Some pc
      end
  end.
Proof. apply finalize_answer_cases. Qed.
End FinalizeMore.

Lemma finalize_raises_iff_stale_witness :
  (exists r, finalize (H := Demo.service) Demo.root 0 None = OK r)
  /\ finalize (H := Demo.service) Open.stale 0 None
     = Raise ResultAggregationException.
Proof.
  split.
  - exact (proj1 (proj2 (finalize_raises_iff_stale (H := Demo.service)
                           Demo.root 0 None) eq_refl) eq_refl).
  - exact (proj1 (finalize_raises_iff_stale (H := Demo.service)
                    Open.stale 0 None) eq_refl).
Defined.

Lemma finalize_marks_whole_tree_witness :
  exists s',
    finalize (H := Demo.service) Demo.root 0 None = OK (s', true, None)
    /\ (forall n d' parent'',
          n ∈ preorder s' ->
          finalize (H := Demo.service) n d' parent''
          = Raise ResultAggregationException)
    /\ map depth (preorder s') = [0; 1; 1; 2].
Proof.
  eexists. split; [reflexivity|].
  destruct (finalize_marks_whole_tree (H := Demo.service) Demo.root _ 0 None
              None true eq_refl) as (Hagain & Hdepth & _).
  split; [exact Hagain|]. rewrite Hdepth. reflexivity.
Defined.

Lemma finalize_answer_witness :
  exists bad',
    finalize (H := Demo.service) Demo.bad_child 1 (Some "R")
    = OK (bad', false, Some "R")
    /\ match @max_classification Demo.service (classification bad') "R" with
       | Some _ => False
       | None => True
       end.
Proof.
  eexists. split; [reflexivity|].
  pose proof (finalize_answer (H := Demo.service) Demo.bad_child _ 1
                (Some "R") (Some "R") false eq_refl) as Hanswer.
  cbv beta iota in Hanswer.
  destruct (max_classification _ _) as [m|]; [|exact I].
  destruct Hanswer as [Hk _]. discriminate Hk.
Defined.

Section Propagation.
Context `{Collaborators}.
Variable join : string -> string -> string.
Hypothesis max_is_join : forall a b, max_classification a b = Some (join a b).

End Propagation.

Section Dominance.
Context `{Collaborators}.
Variable join : string -> string -> string.
Variable le : string -> string -> Prop.
Hypothesis max_is_join : forall a b, max_classification a b = Some (join a b).
Hypothesis le_refl : forall a, le a a.
Hypothesis le_trans : forall a b c, le a b -> le b c -> le a c.
Hypothesis join_above_l : forall a b, le a (join a b).
Hypothesis join_above_r : forall a b, le b (join a b).




End Dominance.



(** ** The Result as a whole *)

Section ResultMore.
Context `{Collaborators}.

(** The first loop of [Result.finalize], when it returns, has finalized
    every section with the answer "keep" and marked nothing for deletion. *)
Lemma finalize_sections_inv (l : list ResultSection) :
  forall finalized to_delete,
    finalize_sections l = OK (finalized, to_delete) ->
    to_delete = []
    /\ Forall2 (fun s s' => exists p', finalize s 0 None = OK (s', true, p'))
               l finalized.
Proof.
  induction l as [|s l IH]; intros finalized to_delete; simpl.
  - intros [= <- <-]. by split.
  - destruct (finalize s 0 None) as [[[s' k] p']|e] eqn:Hs; simpl;
      [|discriminate].
    destruct (finalize_sections l) as [[rest del]|e] eqn:Hl; simpl;
      [|discriminate].
    destruct (IH _ _ eq_refl) as (-> & Hrest).
    pose proof (finalize_top_keeps _ _ _ _ _ Hs) as ->.
    intros [= <- <-]. split; [done|]. constructor; [by eauto | done].
Qed.

Lemma finalize_sections_stale (l : list ResultSection) :
  forallb fresh l = false ->
  finalize_sections l = Raise ResultAggregationException.
Proof.
  induction l as [|s l IH]; simpl; [done|]. intros Hstale.
  destruct (fresh s) eqn:Hs.
  - destruct (finalize_total s Hs 0 None) as [[[s' k] p'] ->]. simpl.
    by rewrite IH.
  - by rewrite finalize_raises_when_stale.
Qed.

(** [Result.finalize] raises when a section was finalized before. *)
Lemma Result_finalize_stale (self : Result) :
  forallb fresh (sections self) = false ->
  Result_finalize self = Raise ResultAggregationException.
Proof.
  intros Hs. unfold Result_finalize. by rewrite finalize_sections_stale.
Qed.

(** X14: a section finalized before, anywhere in the Result, makes
    [Result.finalize] fail with ResultAggregationException.  On a Result in
    which no section object is held twice that is the only failure: when no
    section was finalized before, [Result.finalize] returns, whatever the
    labels of the sections. *)
Theorem Result_finalize_raises_iff_stale (self : Result) :
  (forallb fresh (sections self) = false ->
   Result_finalize self = Raise ResultAggregationException)
  /\ (unshared (sections self) = true ->
      (forallb fresh (sections self) = true ->
       exists r, Result_finalize self = OK r)
      /\ (forall e, Result_finalize self = Raise e ->
          e = ResultAggregationException
          /\ forallb fresh (sections self) = false)).
Proof.
  split; [apply Result_finalize_stale|].
  intros _.
  assert (forallb fresh (sections self) = true ->
          exists r, Result_finalize self = OK r) as Hfresh.
  { intros Hs. unfold Result_finalize.
    destruct (finalize_sections_fresh _ Hs) as (finalized & -> & _).
    simpl. by eexists. }
  split; [done|].
  intros e He. destruct (forallb fresh (sections self)) eqn:Hs.
  - destruct (Hfresh eq_refl) as [r Hr]. congruence.
  - rewrite Result_finalize_stale in He by done. by injection He as <-.
Qed.

(** The sections of a Result after [Result.finalize]. *)
Lemma Result_finalize_sections_kept (self self' : Result)
    (out : ResultDict) :
  Result_finalize self = OK (self', out) ->
  map oid (sections self') = map oid (sections self)
  /\ Forall (fun s => _finalized s = true) (sections self')
  /\ map payload (flat_map preorder (sections self'))
     = map payload (flat_map preorder (sections self)).
Proof.
  unfold Result_finalize.
  destruct (finalize_sections (sections self)) as [[finalized del]|e] eqn:Hl;
    simpl; [|discriminate].
  destruct (finalize_sections_inv _ _ _ Hl) as (-> & Hall).
  intros [= <- _]. simpl. clear Hl.
  induction Hall as [|s s' l l' (p' & Hs) _ IH]; simpl; [done|].
  destruct IH as (Ho & Hf & Hp).
  pose proof Hs as (_ & ? & ? & _ & Hps & Hfs & _)%finalize_inv.
  destruct (finalize_keeps_tree _ _ _ _ _ _ Hs) as (Hpre & _).
  repeat split.
  - f_equal; [by injection Hps | done].
  - by constructor.
  - by rewrite !map_app, Hpre, Hp.
Qed.

(** X15: [Result.finalize] deletes no section: the sections of the Result
    after the call are the sections it had, in their order, each one
    finalized, and no classification failure below them changes that. *)
Theorem Result_finalize_keeps_every_section (self self' : Result)
    (out : ResultDict) :
  Result_finalize self = OK (self', out) ->
  map oid (sections self') = map oid (sections self)
  /\ Forall (fun s => _finalized s = true) (sections self')
  /\ map payload (flat_map preorder (sections self'))
     = map payload (flat_map preorder (sections self)).
Proof. apply Result_finalize_sections_kept. Qed.

(** X16: [Result.finalize] does not start from a clean slate: the records
    it returns are those the Result already held followed by the new ones,
    and the score is the score the Result already had plus the scores of
    all the records, the old ones included. *)
Theorem Result_finalize_accumulates (self self' : Result) (out : ResultDict) :
  Result_finalize self = OK (self', out) ->
  dict_sections out
  = _flattened_sections self
    ++ map section_record (flat_map preorder (sections self'))
  /\ dict_score out
     = _score self
       + sumZ (map record_score (_flattened_sections self))
       + sumZ (map heuristic_score (flat_map preorder (sections self)))
  /\ _flattened_sections self' = dict_sections out
  /\ _score self' = dict_score out.
Proof.
  intros Hfin.
  destruct (Result_finalize_sections_kept _ _ _ Hfin) as (_ & _ & Hp).
  revert Hfin. unfold Result_finalize.
  destruct (finalize_sections (sections self)) as [[finalized del]|e] eqn:Hl;
    simpl; [|discriminate].
  destruct (finalize_sections_inv _ _ _ Hl) as (-> & _).
  intros [= <- <-]. simpl in *. rewrite flatten_all.
  repeat split.
  rewrite add_scores_sum, map_app, !map_map.
  rewrite (map_ext _ heuristic_score) by apply record_score_section.
  rewrite (map_through_payload heuristic_score
             (fun p => match p.2 with Some h => score h | None => 0 end)
             _ _ (fun s => eq_refl) Hp).
  unfold sumZ. rewrite foldr_app.
  generalize (map heuristic_score (flat_map preorder (sections self))).
  intros new.
  induction (map record_score (_flattened_sections self)) as [|x l IH];
    simpl; lia.
Qed.

(** X17: a Result that holds a section can be finalized once: the call after
    a call that returned raises ResultAggregationException. *)
Theorem Result_finalize_twice_raises (self self' : Result) (out : ResultDict) :
  Result_finalize self = OK (self', out) ->
  sections self ≠ [] ->
  Result_finalize self' = Raise ResultAggregationException.
Proof.
  intros Hfin Hne.
  destruct (Result_finalize_sections_kept _ _ _ Hfin) as (Ho & Hf & _).
  apply Result_finalize_stale.
  destruct (sections self') as [|s' l'].
  - by destruct (sections self).
  - apply Forall_cons in Hf as [Hs' _]. simpl.
    by rewrite fresh_eq, Hs'.
Qed.
End ResultMore.

Lemma Result_finalize_raises_iff_stale_witness :
  (exists r,
     Result_finalize (H := Demo.service) (Result_init (Some [Demo.root]))
     = OK r)
  /\ Result_finalize (H := Demo.service)
       (Result_init (Some [Demo.root; Open.stale]))
     = Raise ResultAggregationException.
Proof.
  split.
  - exact (proj1 (proj2 (Result_finalize_raises_iff_stale (H := Demo.service)
                           (Result_init (Some [Demo.root]))) eq_refl) eq_refl).
  - exact (proj1 (Result_finalize_raises_iff_stale (H := Demo.service)
                    (Result_init (Some [Demo.root; Open.stale]))) eq_refl).
Defined.

Lemma Result_finalize_keeps_every_section_witness :
  exists self' out,
    Result_finalize (H := Demo.service) (Result_init (Some [Demo.mixed_root]))
    = OK (self', out)
    /\ map oid (sections self') = [1%positive]
    /\ map oid (flat_map preorder (sections self'))
       = [1%positive; 2%positive; 3%positive].
Proof.
  do 2 eexists. split; [reflexivity|].
  destruct (Result_finalize_keeps_every_section (H := Demo.service)
              (Result_init (Some [Demo.mixed_root])) _ _ eq_refl)
    as (Ho & _ & Hp).
  split; [exact Ho|].
  apply (map_through_payload oid (fun p => p.1.1.1.1.1) _ _
           (fun s => eq_refl) Hp).
Defined.

Lemma Result_finalize_accumulates_witness :
  exists self' out,
    Result_finalize (H := Demo.service)
      (@mkResult Demo.service [section_record (H := Demo.service) Demo.child1]
         5 [Demo.grandchild])
    = OK (self', out)
    /\ length (dict_sections out) = 2%nat
    /\ dict_score out = 13.
Proof.
  do 2 eexists. split; [reflexivity|].
  destruct (Result_finalize_accumulates (H := Demo.service)
              (@mkResult Demo.service
                 [section_record (H := Demo.service) Demo.child1] 5
                 [Demo.grandchild]) _ _ eq_refl)
    as (Hsec & Hscore & _).
  split; [by rewrite Hsec | by rewrite Hscore].
Defined.

Lemma Result_finalize_twice_raises_witness :
  exists self' out,
    Result_finalize (H := Demo.service) (Result_init (Some [Demo.root]))
    = OK (self', out)
    /\ Result_finalize (H := Demo.service) self'
       = Raise ResultAggregationException.
Proof.
  do 2 eexists. split; [reflexivity|].
  apply (Result_finalize_twice_raises (H := Demo.service)
           (Result_init (Some [Demo.root])) _ _ eq_refl).
  discriminate.
Defined.

(** ** Files of a task *)

Section TaskFacts.
Context `{OS}.

(** X18: when the file already lies in the working directory under its
    name, [add_extracted] and [add_supplementary] leave the file system as
    it is and append, at the end of their own list and of no other, the
    record with the name, the digest of [path], the description and the
    classification. *)
Theorem add_extracted_in_place (self : Task)
    (working_directory path name description sha256 : string)
    (classification : option string) (w : filesystem) :
  _working_directory self = Some working_directory ->
  path_exists w (path_dirname path) = true ->
  path_exists w (path_join working_directory name) = true ->
  get_sha256_for_file w path = Some sha256 ->
  (exists self',
     add_extracted self path name description classification w = (w, OK self')
     /\ extracted self'
        = extracted self
          ++ [file_record name sha256 description classification]
     /\ supplementary self' = supplementary self
     /\ _working_directory self' = _working_directory self)
  /\ (exists self',
        add_supplementary self path name description classification w
        = (w, OK self')
        /\ supplementary self'
           = supplementary self
             ++ [file_record name sha256 description classification]
        /\ extracted self' = extracted self
        /\ _working_directory self' = _working_directory self).
Proof.
  intros Hwd Hfolder Hfile Hsha.
  unfold add_extracted, add_supplementary. rewrite Hwd.
  unfold io_bind, ensure_folder, move_unless_exists, sha256_of, io_ret.
  rewrite Hfolder, Hfile, Hsha.
  split; eexists; (split; [reflexivity|]); done.
Qed.

(** X19: [add_extracted] and [add_supplementary] raise TypeError exactly
    when the working directory of the task was never set, and then before
    anything is asked of the file system; every other failure is an
    OSError. *)
Theorem add_extracted_type_error (self : Task) (path name description : string)
    (classification : option string) (w : filesystem) :
  (_working_directory self = None ->
   add_extracted self path name description classification w
   = (w, Raise TypeError)
   /\ add_supplementary self path name description classification w
      = (w, Raise TypeError))
  /\ (forall w' e,
        add_extracted self path name description classification w
        = (w', Raise e)
        \/ add_supplementary self path name description classification w
           = (w', Raise e) ->
        (e = TypeError /\ _working_directory self = None /\ w' = w)
        \/ (e = OSError /\ _working_directory self <> None)).
Proof.
  split.
  - intros Hwd. unfold add_extracted, add_supplementary. by rewrite Hwd.
  - intros w' e. unfold add_extracted, add_supplementary.
    destruct (_working_directory self) as [wd|]; simpl.
    + unfold io_bind, ensure_folder, move_unless_exists, sha256_of, io_ret.
      intros Hraise. right. split; [|done].
      repeat match goal with
             | H : context [if ?b then _ else _] |- _ => destruct b
             | H : context [match ?o with Some _ => _ | None => _ end] |- _ =>
                 destruct o
             end;
        destruct Hraise as [Hr|Hr]; congruence.
    + unfold io_raise. intros [[= <- <-]|[= <- <-]]; by left.
Qed.

(** X20: [add_supplementary] does to the file system what [add_extracted]
    does, fails when it fails, with the same exception, and otherwise
    builds the same record; the one appends it to [supplementary], the
    other to [extracted]. *)
Theorem add_supplementary_mirrors_add_extracted (self : Task)
    (path name description : string) (classification : option string)
    (w : filesystem) :
  (add_extracted self path name description classification w).1
  = (add_supplementary self path name description classification w).1
  /\ match (add_extracted self path name description classification w).2,
           (add_supplementary self path name description classification w).2
     with
     | OK e, OK s =>
         exists sha256,
           extracted e
           = extracted self
             ++ [file_record name sha256 description classification]
           /\ supplementary s
              = supplementary self
                ++ [file_record name sha256 description classification]
           /\ supplementary e = supplementary self
           /\ extracted s = extracted self
     | Raise e, Raise s => e = s
     | _, _ => False
     end.
Proof.
  unfold add_extracted, add_supplementary.
  destruct (_working_directory self) as [wd|]; simpl; [|done].
  unfold io_bind, ensure_folder, move_unless_exists, sha256_of, io_ret.
  destruct (path_exists w (path_dirname path));
    [|destruct (makedirs w (path_dirname path)) as [w1|]; [|done]].
  all: match goal with
       | |- context [path_exists ?w0 (path_join ?a ?b)] =>
           destruct (path_exists w0 (path_join a b));
           [|destruct (move w0 b (path_join a b)) as [w2|]; [|done]]
       end.
  all: match goal with
       | |- context [get_sha256_for_file ?w0 ?p] =>
           destruct (get_sha256_for_file w0 p) as [h|]; [|done]
       end.
  all: simpl; split; [done|]; by exists h.
Qed.
End TaskFacts.

Lemma add_extracted_in_place_witness :
  exists self',
    add_extracted (H := Demo.posix) Demo.task "/wd/a.bin" "a.bin" "kept" None
      Open.disk_staged
    = (Open.disk_staged, OK self')
    /\ extracted self'
       = [file_record "a.bin" (Demo.digest "payload") "kept" None].
Proof.
  destruct (add_extracted_in_place (H := Demo.posix) Demo.task "/wd" "/wd/a.bin"
              "a.bin" "kept" (Demo.digest "payload") None Open.disk_staged
              eq_refl eq_refl eq_refl eq_refl)
    as ((self' & Hadd & Hext & _) & _).
  exists self'. split; [exact Hadd | exact Hext].
Defined.

Lemma add_extracted_type_error_witness :
  add_extracted (H := Demo.posix) Open.task "/wd/a.bin" "a.bin" "kept" None
    Open.disk_staged
  = (Open.disk_staged, Raise TypeError).
Proof.
  exact (proj1 (proj1 (add_extracted_type_error (H := Demo.posix) Open.task
                         "/wd/a.bin" "a.bin" "kept" None Open.disk_staged)
                  eq_refl)).
Defined.

Section DownloadFacts.
Context `{OS}.
Variable gettempdir : string.

(** X21: [download_file] returns a path only for a file that is there and
    whose digest is the sha256 of the task, and the path is always
    [<tmp>/<service_name>/received/<sha256>]; a missing file and a digest
    that differs both end in an [Exception], each with its own message. *)
Theorem download_file_checks_digest (self : Task) (w : filesystem) :
  let expected :=
    path_join4 gettempdir (service_name self) "received" (task_sha256 self) in
  (forall p,
     download_file gettempdir self w = inr p
     <-> p = expected
         /\ path_exists w expected = true
         /\ get_sha256_for_file w expected = Some (task_sha256 self))
  /\ (path_exists w expected = false ->
      download_file gettempdir self w
      = inl (Exception
               "File download failed. File not found on local filesystem."))
  /\ (forall received,
        path_exists w expected = true ->
        get_sha256_for_file w expected = Some received ->
        received <> task_sha256 self ->
        download_file gettempdir self w
        = inl (Exception
                 ("SHA256 mismatch between requested and downloaded file. "
                  +:+ task_sha256 self +:+ " != " +:+ received))).
Proof.
  intros expected. unfold download_file. fold expected.
  split; [|split].
  - intros p. destruct (path_exists w expected); simpl.
    + destruct (get_sha256_for_file w expected) as [received|].
      * destruct (String.eqb_spec received (task_sha256 self)) as [->|Hne];
          simpl; split.
        -- by intros [= <-].
        -- by intros (-> & _ & _).
        -- done.
        -- intros (_ & _ & [= Heq]). by destruct Hne.
      * split; [done|]. by intros (_ & _ & ?).
    + split; [done|]. by intros (_ & ? & _).
  - by intros ->.
  - intros received -> -> Hne. simpl.
    by destruct (String.eqb_spec received (task_sha256 self)).
Qed.
End DownloadFacts.

Lemma download_file_checks_digest_witness :
  download_file (H := Demo.posix) "/tmp" Open.task Open.disk_received
  = inr "/tmp/Demo/received/sha256:payload"
  /\ download_file (H := Demo.posix) "/tmp" Open.task Open.disk_tampered
     = inl (Exception
              ("SHA256 mismatch between requested and downloaded file. "
               +:+ "sha256:payload" +:+ " != " +:+ "sha256:tampered")).
Proof.
  split.
  - apply (proj1 (download_file_checks_digest (H := Demo.posix) "/tmp"
                    Open.task Open.disk_received)).
    repeat split.
  - exact (proj2 (proj2 (download_file_checks_digest (H := Demo.posix) "/tmp"
                           Open.task Open.disk_tampered))
             "sha256:tampered" eq_refl eq_refl ltac:(discriminate)).
Defined.

Section WorkingDirectoryFacts.
Context `{OS}.
Variable gettempdir : string.
Variable isdir : filesystem -> string -> bool.
Variable lower : string -> string.

(** X22: [working_directory] remembers its answer.  A call that returns
    leaves the returned path in the task; a path that was already there is
    returned as it is, otherwise the path is
    [<tmp>/<lower(service_name)>/completed]; the lists of the task are not
    touched; the disk is not touched when the directory exists; and once the
    directory exists a further call answers the same and changes nothing.
    A call fails only when the directory is missing and cannot be made. *)
Theorem working_directory_is_memoized (self self1 : Task) (w w1 : filesystem)
    (p : string) :
  let temp_dir :=
    path_join (path_join gettempdir (lower (service_name self))) "completed" in
  working_directory gettempdir isdir lower self w = (w1, OK (self1, p)) ->
  _working_directory self1 = Some p
  /\ match _working_directory self with
     | Some q => p = q /\ self1 = self
     | None => p = temp_dir
     end
  /\ extracted self1 = extracted self
  /\ supplementary self1 = supplementary self
  /\ service_name self1 = service_name self
  /\ (isdir w temp_dir = true -> w1 = w)
  /\ (isdir w1 temp_dir = true ->
      working_directory gettempdir isdir lower self1 w1 = (w1, OK (self1, p))).
Proof.
  intros temp_dir. unfold working_directory. subst temp_dir.
  set (temp_dir := path_join (path_join gettempdir (lower (service_name self)))
                     "completed").
  destruct (isdir w temp_dir) eqn:Hdir; simpl.
  - destruct (_working_directory self) as [q|] eqn:Hwd.
    + intros [= <- <- <-]. rewrite Hwd.
      repeat split; try done. fold temp_dir. by intros ->.
    + intros [= <- <- <-]. simpl. repeat split; try done.
      fold temp_dir. by intros ->.
  - destruct (makedirs w temp_dir) as [w'|]; [|discriminate].
    destruct (_working_directory self) as [q|] eqn:Hwd.
    + intros [= <- <- <-]. rewrite Hwd.
      repeat split; try done. fold temp_dir. by intros ->.
    + intros [= <- <- <-]. simpl. repeat split; try done.
      fold temp_dir. by intros ->.
Qed.

End WorkingDirectoryFacts.

Lemma working_directory_is_memoized_witness :
  exists w1 self1,
    working_directory (H := Demo.posix) "/tmp" Open.is_dir Open.lower_ascii
      Open.task Open.disk_staged
    = (w1, OK (self1, "/tmp/demo/completed"))
    /\ working_directory (H := Demo.posix) "/tmp" Open.is_dir Open.lower_ascii
         self1 w1
       = (w1, OK (self1, "/tmp/demo/completed")).
Proof.
  do 2 eexists. split; [by vm_compute|].
  refine (proj2 (proj2 (proj2 (proj2 (proj2 (proj2
    (working_directory_is_memoized (H := Demo.posix) "/tmp" Open.is_dir
       Open.lower_ascii Open.task _ Open.disk_staged _ "/tmp/demo/completed"
       _)))))) _); by vm_compute.
Defined.


(** ** Setting the heuristic of a section *)

Section SetHeuristicFacts.
Context `{Collaborators}.

(** X24: [set_heuristic] raises, always InvalidHeuristicException, exactly
    when the section already holds a heuristic or the identifier is not in
    the manifest.  Otherwise the section gets a heuristic of that manifest
    entry whose score is the value of the signature when one is given and
    the base score when none is, and nothing else of the section changes. *)
Theorem set_heuristic_outcome (s : ResultSection) (id : Z)
    (attack_id signature : option string) :
  (forall e,
     set_heuristic s id attack_id signature = Raise e
     <-> e = InvalidHeuristicException
         /\ (heuristic s <> None \/ HEUR_LIST !! id = None))
  /\ (forall s1,
        set_heuristic s id attack_id signature = OK s1 ->
        exists d h,
          HEUR_LIST !! id = Some d
          /\ heuristic s1 = Some h
          /\ definition h = d
          /\ score h = (match signature with
                        | Some sig_name =>
                            if truthy signature
                            then signature_value d sig_name
                            else def_score d
                        | None => def_score d
                        end)
          /\ s1 = set_heuristic_field s (Some h)).
Proof.
  unfold set_heuristic. split.
  - intros e. destruct (heuristic s) as [h0|] eqn:Hh.
    { split; [intros [= <-]; split; [done | by left] | by intros [-> _]]. }
    destruct (HEUR_LIST !! id) as [d|] eqn:Hd.
    + destruct (Heuristic_init_known id d attack_id signature None None 1 Hd)
        as (h & -> & _). simpl.
      split; [done|]. by intros (_ & [?|?]).
    + rewrite Heuristic_init_unknown by done. simpl.
      split; [intros [= <-]; split; [done | by right] | by intros [-> _]].
  - intros s1. destruct (heuristic s) as [h0|]; [done|].
    destruct (HEUR_LIST !! id) as [d|] eqn:Hd.
    + destruct (Heuristic_init_known id d attack_id signature None None 1 Hd)
        as (h & -> & Hdef & Hsigs & Hempty & Hfull). simpl.
      intros [= <-]. exists d, h. repeat split; try done.
      unfold merged_signatures in Hsigs. simpl in Hsigs.
      destruct signature as [sig_name|];
        [destruct (truthy (Some sig_name))|].
      * destruct Hfull as [_ ->]; [rewrite Hsigs; apply bump_nonempty|].
        rewrite Hsigs, signatures_score_bump, signatures_score_empty. lia.
      * destruct (Hempty Hsigs) as [_ ->]. lia.
      * destruct (Hempty Hsigs) as [_ ->]. lia.
    + by rewrite Heuristic_init_unknown.
Qed.
End SetHeuristicFacts.

Lemma set_heuristic_outcome_witness :
  set_heuristic (H := Demo.service) (Demo.leaf 1 "t" "U" None) 7 None None
  = Raise InvalidHeuristicException
  /\ exists s1 h,
       set_heuristic (H := Demo.service) (Demo.leaf 1 "t" "U" None) 2 None
         (Some "sig_a") = OK s1
       /\ heuristic s1 = Some h /\ score h = 100.
Proof.
  split.
  - apply (proj1 (set_heuristic_outcome (H := Demo.service)
                    (Demo.leaf 1 "t" "U" None) 7 None None)).
    split; [reflexivity | right; reflexivity].
  - destruct (proj2 (set_heuristic_outcome (H := Demo.service)
                       (Demo.leaf 1 "t" "U" None) 2 None (Some "sig_a"))
                _ eq_refl) as (d & h & Hd & Hh & _ & Hscore & _).
    eexists _, h. split; [reflexivity|]. split; [exact Hh|].
    rewrite Hscore. injection Hd as <-. reflexivity.
Defined.
